(** * MessageSvc message decoder

    A shallow embedding of [cai/client/message_service/decoders.py]:
    the content-element parser [parse_elements], the buddy-message
    decoder [BuddyMessageDecoder] and the command table
    [MESSAGE_DECODERS], together with the properties the design
    document states about them. *)

From Stdlib Require Import Strings.Byte Sorting.Sorted.
From stdpp Require Import gmap strings list pretty.

Local Open Scope Z_scope.

(** ** Python values *)

(** [bytes] objects are byte lists; [str] objects are sequences of
    Unicode code points. *)
Definition bytes := list byte.
Definition pystr := list N.

(** An ASCII literal read as a [bytes] literal, and as a [str] literal. *)
Definition b (s : string) : bytes := String.list_byte_of_string s.
Definition u (s : string) : pystr := Byte.to_N <$> String.list_byte_of_string s.

(** The exceptions the decoder can let escape: [IndexError] from indexing a
    repeated field past its end, [UnicodeDecodeError] from [bytes.decode],
    and protobuf's [DecodeError] from [FromString]. *)
Inductive exn : Type :=
  | IndexError
  | UnicodeDecodeError
  | DecodeError.

(** The outcome of running a piece of code: a value, a raised exception, or
    [OutOfFuel] when the bound given to a loop was too small. *)
Inductive result (A : Type) : Type :=
  | Ok (a : A)
  | Raise (e : exn)
  | OutOfFuel.
Arguments Ok {A} a.
Arguments Raise {A} e.
Arguments OutOfFuel {A}.

Definition bind {A B : Type} (m : result A) (k : A -> result B) : result B :=
  match m with
  | Ok a => k a
  | Raise e => Raise e
  | OutOfFuel => OutOfFuel
  end.

Notation "'do' x <- m ; k" := (bind m (fun x => k))
  (at level 10, x name, m at level 100, k at level 200).

(** *** [bytes.decode("utf-8")]

    The strict UTF-8 decoder: shortest forms only, no surrogates, nothing
    above U+10FFFF. [None] stands for [UnicodeDecodeError]. *)
Definition in_range (lo hi n : N) : bool := ((lo <=? n) && (n <=? hi))%N.
Definition cont (n : N) : bool := in_range 0x80 0xBF n.
Definition low6 (n : N) : N := N.land n 0x3F.

Fixpoint utf8_decode (bs : bytes) : option pystr :=
  match bs with
  | [] => Some []
  | b0 :: r0 =>
    let n0 := Byte.to_N b0 in
    if (n0 <? 0x80)%N then cons n0 <$> utf8_decode r0
    else if in_range 0xC2 0xDF n0 then
      match r0 with
      | b1 :: r1 =>
        let n1 := Byte.to_N b1 in
        if cont n1
        then cons (N.lor (N.shiftl (N.land n0 0x1F) 6) (low6 n1)) <$> utf8_decode r1
        else None
      | _ => None
      end
    else if in_range 0xE0 0xEF n0 then
      match r0 with
      | b1 :: b2 :: r2 =>
        let n1 := Byte.to_N b1 in
        let n2 := Byte.to_N b2 in
        let lo := if (n0 =? 0xE0)%N then 0xA0%N else 0x80%N in
        let hi := if (n0 =? 0xED)%N then 0x9F%N else 0xBF%N in
        if in_range lo hi n1 && cont n2
        then cons (N.lor (N.shiftl (N.land n0 0x0F) 12)
                     (N.lor (N.shiftl (low6 n1) 6) (low6 n2)))
               <$> utf8_decode r2
        else None
      | _ => None
      end
    else if in_range 0xF0 0xF4 n0 then
      match r0 with
      | b1 :: b2 :: b3 :: r3 =>
        let n1 := Byte.to_N b1 in
        let n2 := Byte.to_N b2 in
        let n3 := Byte.to_N b3 in
        let lo := if (n0 =? 0xF0)%N then 0x90%N else 0x80%N in
        let hi := if (n0 =? 0xF4)%N then 0x8F%N else 0xBF%N in
        if in_range lo hi n1 && cont n2 && cont n3
        then cons (N.lor (N.shiftl (N.land n0 0x07) 18)
                     (N.lor (N.shiftl (low6 n1) 12)
                        (N.lor (N.shiftl (low6 n2) 6) (low6 n3))))
               <$> utf8_decode r3
        else None
      | _ => None
      end
    else None
  end.

Definition bytes_decode (bs : bytes) : result pystr :=
  match utf8_decode bs with
  | Some s => Ok s
  | None => Raise UnicodeDecodeError
  end.

(** ** Protobuf messages

    The generated classes of [cai.pb] are not part of the sources at hand.
    They are protobuf messages: records of optional fields, on which
    [HasField] tells whether a sub-message is set, and on which reading a
    sub-message that is not set gives its default instance, whose scalars
    are [0] and whose [bytes] are empty. Only the fields the decoder reads
    are kept. *)

(** [message.HasField(name)] *)
Definition HasField {A : Type} (field : option A) : bool :=
  match field with Some _ => true | None => false end.

Module Text.
(** Modelled from the spec: the [text] content of a ContentElementRecord, a
    UTF-8 byte payload read as [elem.text.str]. *)
Record t : Type := { str : bytes }.
Definition empty : t := {| str := [] |}.
End Text.

Module Face.
(** Modelled from the spec: the [face] content, an integer index. *)
Record t : Type := { index : Z }.
Definition empty : t := {| index := 0 |}.
End Face.

Module SmallEmoji.
(** Modelled from the spec: the [small_emoji] content, an integer pack
    identifier and an image-type flag. *)
Record t : Type := { pack_id_sum : Z; image_type : Z }.
Definition empty : t := {| pack_id_sum := 0; image_type := 0 |}.
End SmallEmoji.

Module CommonElem.
(** Modelled from the spec: the [common_elem] content, a [service_type]
    discriminant and an embedded serialized sub-payload. *)
Record t : Type := { service_type : Z; pb_elem : bytes }.
Definition empty : t := {| service_type := 0; pb_elem := [] |}.
End CommonElem.

Module Elem.
(** Modelled from the spec: the ContentElementRecord, [cai.pb.im.msg.msg_body.Elem].
    Each content field is optional and tested on its own with [HasField];
    [custom_face], [not_online_image] and [src_msg] are kept as undecoded
    payloads. *)
Record t : Type := {
  text : option Text.t;
  face : option Face.t;
  small_emoji : option SmallEmoji.t;
  common_elem : option CommonElem.t;
  custom_face : option bytes;
  not_online_image : option bytes;
  src_msg : option bytes
}.
Definition empty : t :=
  {| text := None; face := None; small_emoji := None; common_elem := None;
     custom_face := None; not_online_image := None; src_msg := None |}.
Definition get_text (e : t) : Text.t := default Text.empty (text e).
Definition get_face (e : t) : Face.t := default Face.empty (face e).
Definition get_small_emoji (e : t) : SmallEmoji.t :=
  default SmallEmoji.empty (small_emoji e).
Definition get_common_elem (e : t) : CommonElem.t :=
  default CommonElem.empty (common_elem e).
End Elem.

Module MsgElemInfo_servtype2.
(** Modelled from the spec: the poke description embedded in a
    [common_elem] with [service_type == 2]. *)
Record t : Type := {
  poke_type : Z;
  vaspoke_id : Z;
  vaspoke_name : bytes;
  poke_strength : Z;
  double_hit : bool
}.
End MsgElemInfo_servtype2.

Module MsgElemInfo_servtype33.
(** Modelled from the spec: the sub-payload embedded in a [common_elem]
    with [service_type == 33], carrying a face index. *)
Record t : Type := { index : Z }.
End MsgElemInfo_servtype33.

(** The wire parsers [MsgElemInfo_servtype2.FromString] and
    [MsgElemInfo_servtype33.FromString] are generated code that is not part
    of the sources at hand; they are taken as parameters. [None] stands for
    protobuf's [DecodeError]. *)
Class PbCodec : Type := {
  servtype2_FromString : bytes -> option MsgElemInfo_servtype2.t;
  servtype33_FromString : bytes -> option MsgElemInfo_servtype33.t
}.

Definition FromString {A : Type} (parser : bytes -> option A) (data : bytes)
  : result A :=
  match parser data with
  | Some m => Ok m
  | None => Raise DecodeError
  end.

(** ** Message elements ([models.py]) *)

(** Modelled from the spec: the Element variants, with the arguments in the
    order in which [parse_elements] passes them to the constructors. *)
Inductive Element : Type :=
  | TextElement (content : pystr)
  | FaceElement (id : Z)
  | SmallEmojiElement (id : Z) (text : pystr)
  | PokeElement (id : Z) (name : pystr) (strength : Z) (double_hit : bool).

(** ** [parse_elements] *)

(** How one pass through the body of the [while] loop ends: by falling
    through to the next test of the guard, or by [break]. *)
Inductive flow : Type :=
  | Continue (index : nat) (res : list Element)
  | Break (res : list Element).

Section parse_elements.
Context {codec : PbCodec}.

(** [if elem.HasField("text"): ...] *)
Definition text_branch (elem : Elem.t) (res : list Element)
  : result (list Element) :=
  if HasField (Elem.text elem) then
    do s <- bytes_decode (Text.str (Elem.get_text elem));
    Ok (res ++ [TextElement s])
  else Ok res.

(** [if elem.HasField("face"): ...] *)
Definition face_branch (elem : Elem.t) (res : list Element) : list Element :=
  if HasField (Elem.face elem)
  then res ++ [FaceElement (Face.index (Elem.get_face elem))]
  else res.

(** [if elem.HasField("small_emoji"): ...]; the branch moves the cursor. *)
Definition small_emoji_branch (elems : list Elem.t) (elem : Elem.t)
    (index : nat) (res : list Element) : result (nat * list Element) :=
  if HasField (Elem.small_emoji elem) then
    let index := (index + 1)%nat in
    match elems !! index with
    | None => Raise IndexError
    | Some next =>
      do text <- bytes_decode (Text.str (Elem.get_text next));
      Ok (index,
          res ++ [SmallEmojiElement
                    (SmallEmoji.pack_id_sum (Elem.get_small_emoji elem)) text])
    end
  else Ok (index, res).

(** [if elem.HasField("common_elem"): ...], followed by the [index += 1]
    that ends the loop body. *)
Definition common_elem_branch (elem : Elem.t) (index : nat)
    (res : list Element) : result flow :=
  if HasField (Elem.common_elem elem) then
    let service_type := CommonElem.service_type (Elem.get_common_elem elem) in
    if service_type =? 2 then
      do poke <- FromString servtype2_FromString
                   (CommonElem.pb_elem (Elem.get_common_elem elem));
      do name <- bytes_decode (MsgElemInfo_servtype2.vaspoke_name poke);
      Ok (Break
            [PokeElement
               (if MsgElemInfo_servtype2.vaspoke_id poke =? 0xFFFFFFFF
                then MsgElemInfo_servtype2.poke_type poke
                else MsgElemInfo_servtype2.vaspoke_id poke)
               name
               (MsgElemInfo_servtype2.poke_strength poke)
               (MsgElemInfo_servtype2.double_hit poke)])
    else if service_type =? 33 then
      do info <- FromString servtype33_FromString
                   (CommonElem.pb_elem (Elem.get_common_elem elem));
      Ok (Continue (index + 1)
            (res ++ [FaceElement (MsgElemInfo_servtype33.index info)]))
    else Ok (Continue (index + 1) res)
  else Ok (Continue (index + 1) res).

(** The body of the [while] loop, entered with [index < len(elems)]. The
    [src_msg], [custom_face] and [not_online_image] tests have empty
    bodies. *)
Definition loop_body (elems : list Elem.t) (index : nat)
    (res : list Element) : result flow :=
  match elems !! index with
  | None => Raise IndexError
  | Some elem =>
    do res <- text_branch elem res;
    let res := face_branch elem res in
    do moved <- small_emoji_branch elems elem index res;
    let '(index, res) := moved in
    common_elem_branch elem index res
  end.

(** [while index < len(elems): ...], unrolled at most [fuel] times. *)
Fixpoint while_loop (fuel : nat) (elems : list Elem.t) (index : nat)
    (res : list Element) : result (list Element) :=
  if (index <? length elems)%nat then
    match fuel with
    | O => OutOfFuel
    | S fuel =>
      match loop_body elems index res with
      | Ok (Continue index res) => while_loop fuel elems index res
      | Ok (Break res) => Ok res
      | Raise e => Raise e
      | OutOfFuel => OutOfFuel
      end
    end
  else Ok res.

(** The cursor moves forward in every pass, so [len(elems)] passes are
    enough (see [parse_elements_total]). *)
Definition parse_elements (elems : list Elem.t) : result (list Element) :=
  while_loop (length elems) elems 0 [].
End parse_elements.


(** ** The message envelope ([cai.pb.msf.msg.comm.Msg]) *)

Module MsgHead.
(** Modelled from the spec: the header block of a MessageRecord. *)
Record t : Type := {
  from_uin : Z;
  to_uin : Z;
  msg_type : Z;
  c2c_cmd : Z;
  seq : Z;
  time : Z;
  from_nick : pystr
}.
Definition empty : t :=
  {| from_uin := 0; to_uin := 0; msg_type := 0; c2c_cmd := 0; seq := 0;
     time := 0; from_nick := [] |}.
End MsgHead.

Module ContentHead.
(** Modelled from the spec: the content head, with its [auto_reply] flag. *)
Record t : Type := { auto_reply : Z }.
Definition empty : t := {| auto_reply := 0 |}.
End ContentHead.

Module RichText.
(** Modelled from the spec: the rich text of a body, holding the ordered
    sequence of content elements. *)
Record t : Type := { elems : list Elem.t }.
Definition empty : t := {| elems := [] |}.
End RichText.

Module MsgBody.
(** Modelled from the spec: the body of a MessageRecord. *)
Record t : Type := { rich_text : option RichText.t }.
Definition empty : t := {| rich_text := None |}.
Definition get_rich_text (m : t) : RichText.t :=
  default RichText.empty (rich_text m).
End MsgBody.

Module Msg.
(** Modelled from the spec: the MessageRecord, [cai.pb.msf.msg.comm.Msg]. *)
Record t : Type := {
  head : option MsgHead.t;
  content_head : option ContentHead.t;
  body : option MsgBody.t
}.
Definition get_head (m : t) : MsgHead.t := default MsgHead.empty (head m).
Definition get_content_head (m : t) : ContentHead.t :=
  default ContentHead.empty (content_head m).
Definition get_body (m : t) : MsgBody.t := default MsgBody.empty (body m).
End Msg.

(** ** Events ([cai.client.event], [models.py]) *)

(** Modelled from the spec: the Event variants; [PrivateMessage] is the only
    one the decoder builds, with the arguments in the order in which
    [decode_normal_buddy] passes them. *)
Inductive Event : Type :=
  | PrivateMessage (seq time : Z) (auto_reply : bool) (from_uin : Z)
      (from_nick : pystr) (to_uin : Z) (message : list Element).

(** [bool(n)] for an integer [n]. *)
Definition py_bool (n : Z) : bool := negb (n =? 0).

(** ** The logger

    [logger.debug] appends one record to the log; a decoder returns the
    records it emitted next to its outcome. *)
Inductive log_record : Type :=
  | debug (msg : string).

Definition traced (A : Type) : Type := list log_record * result A.

(** ** [BuddyMessageDecoder] *)
Module BuddyMessageDecoder.
Section decoders.
Context {codec : PbCodec}.

(** Normal Buddy Message Decoder. *)
Definition decode_normal_buddy (message : Msg.t) : result (option Event) :=
  if negb (HasField (Msg.body message))
     || negb (HasField (MsgBody.rich_text (Msg.get_body message)))
     || bool_decide
          (RichText.elems (MsgBody.get_rich_text (Msg.get_body message)) = [])
     || negb (HasField (Msg.content_head message))
  then Ok None
  else
    let seq := MsgHead.seq (Msg.get_head message) in
    let time := MsgHead.time (Msg.get_head message) in
    let auto_reply :=
      py_bool (ContentHead.auto_reply (Msg.get_content_head message)) in
    let from_uin := MsgHead.from_uin (Msg.get_head message) in
    let from_nick := MsgHead.from_nick (Msg.get_head message) in
    let to_uin := MsgHead.to_uin (Msg.get_head message) in
    let elems := RichText.elems (MsgBody.get_rich_text (Msg.get_body message)) in
    do elements <- parse_elements elems;
    Ok (Some (PrivateMessage seq time auto_reply from_uin from_nick to_uin
                elements)).

(** The [sub_decoders] dictionary of [decode], keyed by [c2c_cmd]. *)
Definition sub_decoders : gmap Z (Msg.t -> result (option Event)) :=
  <[11 := decode_normal_buddy]> (<[175 := decode_normal_buddy]> ∅).

(** Buddy Message Decoder. [sub_decoders.get] gives [None] on a miss, and
    the decoders stored in the table are never falsy. *)
Definition decode (message : Msg.t) : traced (option Event) :=
  match sub_decoders !! MsgHead.c2c_cmd (Msg.get_head message) with
  | None =>
    ([debug ("MessageSvc.PbGetMsg: BuddyMessageDecoder cannot decode message with c2c_cmd "
             +:+ pretty (MsgHead.c2c_cmd (Msg.get_head message)))],
     Ok None)
  | Some Decoder => ([], Decoder message)
  end.

End decoders.
End BuddyMessageDecoder.

(** The table of C2C message decoders, keyed by the top-level command. *)
Definition MESSAGE_DECODERS {codec : PbCodec}
  : gmap Z (Msg.t -> traced (option Event)) :=
  <[9 := BuddyMessageDecoder.decode]> (
  <[10 := BuddyMessageDecoder.decode]> (
  <[31 := BuddyMessageDecoder.decode]> (
  <[79 := BuddyMessageDecoder.decode]> (
  <[97 := BuddyMessageDecoder.decode]> (
  <[120 := BuddyMessageDecoder.decode]> (
  <[132 := BuddyMessageDecoder.decode]> (
  <[133 := BuddyMessageDecoder.decode]> (
  <[166 := BuddyMessageDecoder.decode]> (
  <[167 := BuddyMessageDecoder.decode]> ∅))))))))).

(** ** Notions used to state the properties *)

Section scan.
Context {codec : PbCodec}.

(** The part of the loop body that runs before the [common_elem] test: the
    [text], [face] and [small_emoji] branches. It gives the cursor and the
    list with which the [common_elem] test is entered. *)
Definition before_common_elem (elems : list Elem.t) (elem : Elem.t)
    (index : nat) (res : list Element) : result (nat * list Element) :=
  do res <- text_branch elem res;
  small_emoji_branch elems elem index (face_branch elem res).

(** [reaches elems index res]: running [parse_elements elems], the guard of
    the loop is tested with the cursor at [index] and the list [res]. *)
Inductive reaches (elems : list Elem.t) : nat -> list Element -> Prop :=
  | reaches_start : reaches elems 0%nat []
  | reaches_pass index res index' res' :
      reaches elems index res ->
      (index < length elems)%nat ->
      loop_body elems index res = Ok (Continue index' res') ->
      reaches elems index' res'.

(** What the record under the cursor adds to the list in one pass: the
    outcome of the pass entered with an empty list. *)
Definition emitted (elems : list Elem.t) (index : nat) : list Element :=
  match loop_body elems index [] with
  | Ok (Continue _ new) => new
  | Ok (Break new) => new
  | _ => []
  end.
End scan.

(** The structure [decode_normal_buddy] asks for: a content head, and a body
    whose rich text holds at least one content element. *)
Definition has_content (message : Msg.t) : Prop :=
  is_Some (Msg.content_head message)
  /\ exists body rich_text,
       Msg.body message = Some body
       /\ MsgBody.rich_text body = Some rich_text
       /\ RichText.elems rich_text <> [].

Definition content_elements (message : Msg.t) : list Elem.t :=
  RichText.elems (MsgBody.get_rich_text (Msg.get_body message)).

(** A [common_elem] record with [service_type == 2]. *)
Definition is_poke (elem : Elem.t) : bool :=
  match Elem.common_elem elem with
  | Some ce => CommonElem.service_type ce =? 2
  | None => false
  end.

(** The tags [parse_elements] acts on. *)
Definition recognized_tags (elem : Elem.t) : nat :=
  (Nat.b2n (HasField (Elem.text elem)) + Nat.b2n (HasField (Elem.face elem))
   + Nat.b2n (HasField (Elem.small_emoji elem))
   + Nat.b2n (HasField (Elem.common_elem elem)))%nat.

(** ** Sample inputs *)

(** Records with a single tag set. *)
Definition text_record (s : bytes) : Elem.t :=
  Elem.Build_t (Some {| Text.str := s |}) None None None None None None.
Definition face_record (index : Z) : Elem.t :=
  Elem.Build_t None (Some {| Face.index := index |}) None None None None None.
Definition small_emoji_record (pack_id_sum : Z) : Elem.t :=
  Elem.Build_t None None
    (Some {| SmallEmoji.pack_id_sum := pack_id_sum; SmallEmoji.image_type := 0 |})
    None None None None.
Definition common_elem_record (service_type : Z) (pb_elem : bytes) : Elem.t :=
  Elem.Build_t None None None
    (Some {| CommonElem.service_type := service_type;
             CommonElem.pb_elem := pb_elem |})
    None None None.

(** Records with two tags set. *)
Definition text_face_record (s : bytes) (index : Z) : Elem.t :=
  Elem.Build_t (Some {| Text.str := s |}) (Some {| Face.index := index |})
    None None None None None.
Definition text_common_elem_record (s : bytes) (service_type : Z)
    (pb_elem : bytes) : Elem.t :=
  Elem.Build_t (Some {| Text.str := s |}) None None
    (Some {| CommonElem.service_type := service_type;
             CommonElem.pb_elem := pb_elem |})
    None None None.

(** A stand-in for the generated parsers, enough to run the examples: the
    poke payload ["P"] carries the sentinel [vaspoke_id], the poke payload
    ["Q"] carries [vaspoke_id = 99], and a one-byte face payload carries
    that byte as its index. Everything else is malformed. *)
Definition sample_poke (vaspoke_id : Z) : MsgElemInfo_servtype2.t :=
  {| MsgElemInfo_servtype2.poke_type := 5;
     MsgElemInfo_servtype2.vaspoke_id := vaspoke_id;
     MsgElemInfo_servtype2.vaspoke_name := b "Poke";
     MsgElemInfo_servtype2.poke_strength := 1;
     MsgElemInfo_servtype2.double_hit := false |}.

Definition sample_codec : PbCodec :=
  {| servtype2_FromString data :=
       match data with
       | [tag] =>
         if Byte.eqb tag "P"%byte then Some (sample_poke 0xFFFFFFFF)
         else if Byte.eqb tag "Q"%byte then Some (sample_poke 99)
         else None
       | _ => None
       end;
     servtype33_FromString data :=
       match data with
       | [index] => Some {| MsgElemInfo_servtype33.index := Z.of_N (Byte.to_N index) |}
       | _ => None
       end |}.

(** A message whose body carries the given content elements. *)
Definition sample_message (c2c_cmd : Z) (elems : list Elem.t) : Msg.t :=
  {| Msg.head :=
       Some {| MsgHead.from_uin := 10001; MsgHead.to_uin := 10002;
               MsgHead.msg_type := 166; MsgHead.c2c_cmd := c2c_cmd;
               MsgHead.seq := 7; MsgHead.time := 1600000000;
               MsgHead.from_nick := u "nick" |};
     Msg.content_head := Some {| ContentHead.auto_reply := 0 |};
     Msg.body := Some {| MsgBody.rich_text := Some {| RichText.elems := elems |} |} |}.

(** ** Notions used for the further properties *)

(** The number of recognized tags set over a whole sequence. *)
Definition total_tags (elems : list Elem.t) : nat :=
  sum_list (recognized_tags <$> elems).

(** A record on which none of the tags [parse_elements] acts on is set: it
    may carry [src_msg], [custom_face] or [not_online_image]. *)
Definition undecoded (elem : Elem.t) : Prop := recognized_tags elem = 0%nat.

(** [comes_from elems x]: the element [x] is what some record of [elems]
    carries: a decoded [text] payload, a [face] index or the index of a
    [service_type == 33] payload, the pack identifier of a [small_emoji]
    record with the decoded [text.str] of the record after it, or a decoded
    poke payload. *)
Definition comes_from {codec : PbCodec} (elems : list Elem.t) (x : Element)
  : Prop :=
  match x with
  | TextElement content =>
    exists elem t,
      elem ∈ elems /\ Elem.text elem = Some t
      /\ utf8_decode (Text.str t) = Some content
  | FaceElement id =>
    (exists elem f,
       elem ∈ elems /\ Elem.face elem = Some f /\ Face.index f = id)
    \/ (exists elem ce info,
          elem ∈ elems /\ Elem.common_elem elem = Some ce
          /\ CommonElem.service_type ce = 33
          /\ servtype33_FromString (CommonElem.pb_elem ce) = Some info
          /\ MsgElemInfo_servtype33.index info = id)
  | SmallEmojiElement id text =>
    exists index elem se next,
      elems !! index = Some elem /\ Elem.small_emoji elem = Some se
      /\ SmallEmoji.pack_id_sum se = id
      /\ elems !! S index = Some next
      /\ utf8_decode (Text.str (Elem.get_text next)) = Some text
  | PokeElement id name strength double_hit =>
    exists elem ce poke,
      elem ∈ elems /\ Elem.common_elem elem = Some ce
      /\ CommonElem.service_type ce = 2
      /\ servtype2_FromString (CommonElem.pb_elem ce) = Some poke
      /\ id = (if MsgElemInfo_servtype2.vaspoke_id poke =? 0xFFFFFFFF
               then MsgElemInfo_servtype2.poke_type poke
               else MsgElemInfo_servtype2.vaspoke_id poke)
      /\ utf8_decode (MsgElemInfo_servtype2.vaspoke_name poke) = Some name
      /\ strength = MsgElemInfo_servtype2.poke_strength poke
      /\ double_hit = MsgElemInfo_servtype2.double_hit poke
  end.

(** What a record that carries neither [small_emoji] nor [common_elem]
    stands for: its decoded text, then its face. *)
Definition plain_elements (elem : Elem.t) : option (list Element) :=
  match Elem.text elem with
  | Some t =>
    content ← utf8_decode (Text.str t);
    Some (TextElement content :: face_branch elem [])
  | None => Some (face_branch elem [])
  end.

(** The poke element, as a test. *)
Definition is_poke_element (x : Element) : bool :=
  match x with PokeElement _ _ _ _ => true | _ => false end.

(** A record that carries only an undecoded [custom_face] payload. *)
Definition custom_face_record (payload : bytes) : Elem.t :=
  Elem.Build_t None None None None (Some payload) None None.

(** A message with a head and nothing else. *)
Definition bare_message (c2c_cmd : Z) : Msg.t :=
  {| Msg.head :=
       Some {| MsgHead.from_uin := 10001; MsgHead.to_uin := 10002;
               MsgHead.msg_type := 166; MsgHead.c2c_cmd := c2c_cmd;
               MsgHead.seq := 7; MsgHead.time := 1600000000;
               MsgHead.from_nick := u "nick" |};
     Msg.content_head := None;
     Msg.body := None |}.

(** The event [decode_normal_buddy] builds around a list of elements: the
    head fields of the message, the truth value of [auto_reply], and the
    list. *)
Definition private_message (message : Msg.t) (elements : list Element)
  : Event :=
  PrivateMessage
    (MsgHead.seq (Msg.get_head message))
    (MsgHead.time (Msg.get_head message))
    (py_bool (ContentHead.auto_reply (Msg.get_content_head message)))
    (MsgHead.from_uin (Msg.get_head message))
    (MsgHead.from_nick (Msg.get_head message))
    (MsgHead.to_uin (Msg.get_head message))
    elements.

(** * Properties *)

(** ** The mechanics of the loop *)

Section loop.
Context {codec : PbCodec}.
Implicit Types (elems : list Elem.t) (elem : Elem.t) (res : list Element).

Lemma HasField_true {A : Type} (field : option A) :
  HasField field = true <-> is_Some field.
Proof. destruct field; simpl; split; intros H; eauto; done. Qed.

Lemma bind_Ok {A B : Type} (m : result A) (k : A -> result B) (y : B) :
  bind m k = Ok y <-> exists x, m = Ok x /\ k x = Ok y.
Proof.
  destruct m; simpl; split; try done; try (by intros (? & ? & ?)).
  - eauto.
  - by intros (x & [= ->] & ?).
Qed.

Lemma loop_body_eq elems elem index res :
  elems !! index = Some elem ->
  loop_body elems index res =
    bind (before_common_elem elems elem index res)
      (fun moved => common_elem_branch elem moved.1 moved.2).
Proof.
  intros Hel. unfold loop_body, before_common_elem. rewrite Hel.
  destruct (text_branch elem res); simpl; try done.
  by destruct (small_emoji_branch _ _ _ _) as [[] | |].
Qed.

(** The [small_emoji] branch leaves the cursor where it is, or moves it to
    the following record, which then exists. *)
Lemma small_emoji_branch_cursor elems elem index res index' res' :
  small_emoji_branch elems elem index res = Ok (index', res') ->
  index' = index \/ (index' = S index /\ S index < length elems)%nat.
Proof.
  unfold small_emoji_branch. destruct (HasField _).
  - replace (index + 1)%nat with (S index) by lia.
    destruct (elems !! S index) eqn:Hnext; [|done].
    apply lookup_lt_Some in Hnext.
    destruct (bytes_decode _); simpl; [|done..]. intros [= <- <-]. auto.
  - intros [= <- <-]. auto.
Qed.

Lemma common_elem_branch_cursor elem index res index' res' :
  common_elem_branch elem index res = Ok (Continue index' res') ->
  index' = S index.
Proof.
  unfold common_elem_branch, bind, FromString, bytes_decode.
  repeat case_match; try done; inversion 1; lia.
Qed.

(** Every pass that falls through moves the cursor forward, and never past
    the end of the sequence. *)
Lemma loop_body_forward elems index res index' res' :
  loop_body elems index res = Ok (Continue index' res') ->
  (index < index' <= length elems)%nat.
Proof.
  unfold loop_body. destruct (elems !! index) as [elem|] eqn:Hel; [|done].
  apply lookup_lt_Some in Hel.
  destruct (text_branch elem res) as [r1| |]; simpl; [|done..].
  destruct (small_emoji_branch _ _ _ _) as [[i2 r2]| |] eqn:Hse; simpl; [|done..].
  intros Hce%common_elem_branch_cursor.
  apply small_emoji_branch_cursor in Hse. lia.
Qed.

(** More fuel than the distance to the end changes nothing. *)
Lemma while_loop_fuel fuel1 fuel2 elems index res :
  (length elems <= index + fuel1)%nat ->
  (length elems <= index + fuel2)%nat ->
  while_loop fuel1 elems index res = while_loop fuel2 elems index res.
Proof.
  revert fuel2 index res.
  induction fuel1 as [|fuel1 IH]; intros fuel2 index res H1 H2.
  - destruct fuel2; simpl; destruct (index <? length elems)%nat eqn:Hlt; try done;
      apply Nat.ltb_lt in Hlt; lia.
  - destruct fuel2; simpl; destruct (index <? length elems)%nat eqn:Hlt; try done.
    + apply Nat.ltb_lt in Hlt; lia.
    + destruct (loop_body elems index res) as [[i' r'|]| |] eqn:Hbody; try done.
      apply loop_body_forward in Hbody. apply IH; lia.
Qed.

Lemma while_loop_total fuel elems index res :
  (length elems <= index + fuel)%nat ->
  while_loop fuel elems index res <> OutOfFuel.
Proof.
  revert index res. induction fuel as [|fuel IH]; intros index res Hfuel; simpl;
    destruct (index <? length elems)%nat eqn:Hlt; try done.
  - apply Nat.ltb_lt in Hlt; lia.
  - destruct (loop_body elems index res) as [[i' r'|]| |] eqn:Hbody; try done.
    + apply loop_body_forward in Hbody. apply IH; lia.
    + unfold loop_body in Hbody. destruct (elems !! index) as [elem|]; [|done].
      destruct (text_branch elem res) as [r1| |] eqn:Ht; simpl in Hbody; try done.
      * destruct (small_emoji_branch _ _ _ _) as [[i2 r2]| |] eqn:Hse;
          simpl in Hbody; try done.
        -- unfold common_elem_branch, FromString, bytes_decode in Hbody.
           repeat (case_match; simpl in Hbody; try done).
        -- unfold small_emoji_branch, bytes_decode in Hse.
           repeat (case_match; simpl in Hse; try done).
      * unfold text_branch, bytes_decode in Ht.
        repeat (case_match; simpl in Ht; try done).
Qed.

(** [parse_elements] always comes to an end: it returns a list or raises. *)
Lemma parse_elements_total elems : parse_elements elems <> OutOfFuel.
Proof. apply while_loop_total. lia. Qed.

(** From a state the scan reaches, the rest of the scan gives the result. *)
Lemma reaches_cursor elems index res :
  reaches elems index res -> (index <= length elems)%nat.
Proof.
  induction 1 as [|i r i' r' _ _ _ Hbody]; [lia|].
  apply loop_body_forward in Hbody. lia.
Qed.

Lemma reaches_parse elems index res fuel :
  reaches elems index res ->
  (length elems <= index + fuel)%nat ->
  parse_elements elems = while_loop fuel elems index res.
Proof.
  intros Hreach. revert fuel.
  induction Hreach as [|i r i' r' _ IH Hlt Hbody]; intros fuel Hfuel.
  - apply while_loop_fuel; lia.
  - rewrite (IH (S (length elems))) by lia. simpl.
    apply Nat.ltb_lt in Hlt. rewrite Hlt, Hbody.
    apply while_loop_fuel; lia.
Qed.

(** The outcome of the scan, read off the pass at a reached position. *)
Lemma reaches_parse_pass elems index res :
  reaches elems index res ->
  (index < length elems)%nat ->
  parse_elements elems =
    match loop_body elems index res with
    | Ok (Continue index' res') =>
      while_loop (length elems - index') elems index' res'
    | Ok (Break res') => Ok res'
    | Raise e => Raise e
    | OutOfFuel => OutOfFuel
    end.
Proof.
  intros Hreach Hlt.
  rewrite (reaches_parse _ _ _ (S (length elems)) Hreach) by lia. simpl.
  apply Nat.ltb_lt in Hlt as Hlt'. rewrite Hlt'.
  destruct (loop_body elems index res) as [[i' r'|]| |] eqn:Hbody; try done.
  apply loop_body_forward in Hbody. apply while_loop_fuel; lia.
Qed.
End loop.

(** ** The [common_elem] branch *)

Section common_elem.
Context {codec : PbCodec}.
Implicit Types (elems : list Elem.t) (elem : Elem.t) (res : list Element).

Lemma is_poke_spec elem :
  is_poke elem = true <->
  exists ce, Elem.common_elem elem = Some ce /\ CommonElem.service_type ce = 2.
Proof.
  unfold is_poke. destruct (Elem.common_elem elem) as [ce|]; split.
  - intros ?%Z.eqb_eq. eauto.
  - intros (? & [= <-] & ?). by apply Z.eqb_eq.
  - done.
  - by intros (? & ? & ?).
Qed.

(** The pass over a poke record whose payload decodes ends in [break] with
    a list holding the poke alone, whatever had been accumulated. *)
Lemma poke_pass elems index res elem moved poke name :
  elems !! index = Some elem ->
  is_poke elem = true ->
  before_common_elem elems elem index res = Ok moved ->
  servtype2_FromString (CommonElem.pb_elem (Elem.get_common_elem elem))
    = Some poke ->
  utf8_decode (MsgElemInfo_servtype2.vaspoke_name poke) = Some name ->
  loop_body elems index res =
    Ok (Break
          [PokeElement
             (if MsgElemInfo_servtype2.vaspoke_id poke =? 0xFFFFFFFF
              then MsgElemInfo_servtype2.poke_type poke
              else MsgElemInfo_servtype2.vaspoke_id poke)
             name
             (MsgElemInfo_servtype2.poke_strength poke)
             (MsgElemInfo_servtype2.double_hit poke)]).
Proof.
  intros Hel (ce & Hce & Hst)%is_poke_spec Hbefore Hpb Hname.
  rewrite (loop_body_eq _ _ _ _ Hel), Hbefore. simpl.
  unfold common_elem_branch, Elem.get_common_elem in *. rewrite Hce in *. simpl in *.
  rewrite Hst. simpl. unfold FromString, bytes_decode. rewrite Hpb. simpl.
  by rewrite Hname.
Qed.

(** C1, as amended. When the scan comes to a [common_elem] record with
    [service_type == 2], the tags tested before [common_elem] on that record
    being processed without an exception and the poke payload and its name
    decoding, [parse_elements] returns the list made of that one
    [PokeElement]: what had been accumulated is dropped and the records after
    it are not looked at. *)
Theorem parse_elements_poke_override elems index res elem moved poke name :
  reaches elems index res ->
  elems !! index = Some elem ->
  is_poke elem = true ->
  before_common_elem elems elem index res = Ok moved ->
  servtype2_FromString (CommonElem.pb_elem (Elem.get_common_elem elem))
    = Some poke ->
  utf8_decode (MsgElemInfo_servtype2.vaspoke_name poke) = Some name ->
  parse_elements elems =
    Ok [PokeElement
          (if MsgElemInfo_servtype2.vaspoke_id poke =? 0xFFFFFFFF
           then MsgElemInfo_servtype2.poke_type poke
           else MsgElemInfo_servtype2.vaspoke_id poke)
          name
          (MsgElemInfo_servtype2.poke_strength poke)
          (MsgElemInfo_servtype2.double_hit poke)].
Proof.
  intros Hreach Hel Hpoke Hbefore Hpb Hname.
  rewrite (reaches_parse_pass _ _ _ Hreach) by (by eapply lookup_lt_Some).
  by rewrite (poke_pass _ _ _ _ _ _ _ Hel Hpoke Hbefore Hpb Hname).
Qed.

(** C2. The pass that decodes a poke payload builds a [PokeElement] whose
    identifier is [poke_type] when [vaspoke_id] is [0xFFFFFFFF], and is
    [vaspoke_id] for every other value; so [vaspoke_id = 99] gives the
    identifier [99]. *)
Theorem poke_identifier elems index res elem moved poke name :
  elems !! index = Some elem ->
  is_poke elem = true ->
  before_common_elem elems elem index res = Ok moved ->
  servtype2_FromString (CommonElem.pb_elem (Elem.get_common_elem elem))
    = Some poke ->
  utf8_decode (MsgElemInfo_servtype2.vaspoke_name poke) = Some name ->
  exists id,
    loop_body elems index res =
      Ok (Break [PokeElement id name
                   (MsgElemInfo_servtype2.poke_strength poke)
                   (MsgElemInfo_servtype2.double_hit poke)])
    /\ (MsgElemInfo_servtype2.vaspoke_id poke = 0xFFFFFFFF ->
        id = MsgElemInfo_servtype2.poke_type poke)
    /\ (MsgElemInfo_servtype2.vaspoke_id poke <> 0xFFFFFFFF ->
        id = MsgElemInfo_servtype2.vaspoke_id poke)
    /\ (MsgElemInfo_servtype2.vaspoke_id poke = 99 -> id = 99).
Proof.
  intros Hel Hpoke Hbefore Hpb Hname.
  eexists. split; [by eapply poke_pass|].
  destruct (Z.eqb_spec (MsgElemInfo_servtype2.vaspoke_id poke) 0xFFFFFFFF)
    as [Heq|Hne].
  - split_and!; intros; [reflexivity | contradiction | lia].
  - split_and!; intros; [contradiction | reflexivity | lia].
Qed.

End common_elem.

(** ** The [small_emoji] branch *)

Section small_emoji.
Context {codec : PbCodec}.
Implicit Types (elems : list Elem.t) (elem : Elem.t) (res : list Element).

Lemma text_branch_fuel elem res : text_branch elem res <> OutOfFuel.
Proof. unfold text_branch, bind, bytes_decode. by repeat case_match. Qed.

(** The caption is the decoded [text.str] of the following record, be the
    [text] field of that record set or not. *)
Lemma small_emoji_pass elems index res elem se res1 next caption :
  elems !! index = Some elem ->
  Elem.small_emoji elem = Some se ->
  text_branch elem res = Ok res1 ->
  elems !! S index = Some next ->
  utf8_decode (Text.str (Elem.get_text next)) = Some caption ->
  before_common_elem elems elem index res =
    Ok (S index,
        face_branch elem res1
          ++ [SmallEmojiElement (SmallEmoji.pack_id_sum se) caption]).
Proof.
  intros Hel Hse Htext Hnext Hcaption.
  unfold before_common_elem. rewrite Htext. simpl.
  unfold small_emoji_branch, Elem.get_small_emoji. rewrite Hse. simpl.
  replace (index + 1)%nat with (S index) by lia. rewrite Hnext.
  unfold bytes_decode. by rewrite Hcaption.
Qed.

Lemma common_elem_branch_absent elem index res :
  Elem.common_elem elem = None ->
  common_elem_branch elem index res = Ok (Continue (S index) res).
Proof.
  intros Hce. unfold common_elem_branch. rewrite Hce. simpl.
  by replace (index + 1)%nat with (S index) by lia.
Qed.

(** C4, as amended. When the cursor is on a [small_emoji] record whose own
    [text] payload, if it has one, decodes, and the next record carries a
    [text] payload that decodes, the pass appends one [SmallEmojiElement]
    made of the pack identifier of the record and the decoded text of the
    next one, and enters the [common_elem] test with the cursor on the next
    record; any pass that falls through resumes two positions further, so
    the next record is never under the cursor and gives no [TextElement].
    [[small_emoji(42), text("caption")]] gives
    [[SmallEmojiElement(42, "caption")]]. *)
Theorem small_emoji_caption elems index res elem se res1 next t caption :
  elems !! index = Some elem ->
  Elem.small_emoji elem = Some se ->
  text_branch elem res = Ok res1 ->
  elems !! S index = Some next ->
  Elem.text next = Some t ->
  utf8_decode (Text.str t) = Some caption ->
  let res2 :=
    face_branch elem res1
      ++ [SmallEmojiElement (SmallEmoji.pack_id_sum se) caption] in
  loop_body elems index res = common_elem_branch elem (S index) res2
  /\ (Elem.common_elem elem = None ->
      loop_body elems index res = Ok (Continue (S (S index)) res2))
  /\ (forall index' res',
        loop_body elems index res = Ok (Continue index' res') ->
        index' = S (S index))
  /\ parse_elements [small_emoji_record 42; text_record (b "caption")]
     = Ok [SmallEmojiElement 42 (u "caption")].
Proof.
  intros Hel Hse Htext Hnext Ht Hcaption res2.
  assert (Hbefore : before_common_elem elems elem index res = Ok (S index, res2)).
  { eapply small_emoji_pass; eauto. unfold Elem.get_text. by rewrite Ht. }
  assert (Hbody : loop_body elems index res
                  = common_elem_branch elem (S index) res2).
  { by rewrite (loop_body_eq _ _ _ _ Hel), Hbefore. }
  split_and!.
  - done.
  - intros Hce. by rewrite Hbody, common_elem_branch_absent.
  - intros index' res'. rewrite Hbody.
    by intros ->%common_elem_branch_cursor.
  - reflexivity.
Qed.

(** C5, as amended. When the scan comes to the final record and that record
    carries [small_emoji], [parse_elements] raises and returns no list; the
    exception is the [IndexError] of the access past the end, unless the
    [text] payload of that same record is not UTF-8, which raises first. *)
Theorem trailing_small_emoji_aborts elems index res elem :
  reaches elems index res ->
  elems !! index = Some elem ->
  S index = length elems ->
  is_Some (Elem.small_emoji elem) ->
  (exists e, parse_elements elems = Raise e)
  /\ (forall res1,
        text_branch elem res = Ok res1 ->
        parse_elements elems = Raise IndexError).
Proof.
  intros Hreach Hel Hlast Hse%HasField_true.
  rewrite (reaches_parse_pass _ _ _ Hreach) by lia.
  assert (Hnext : elems !! (index + 1)%nat = None)
    by (apply lookup_ge_None; lia).
  unfold loop_body. rewrite Hel.
  pose proof (text_branch_fuel elem res) as Hfuel.
  destruct (text_branch elem res) as [res1|e|]; simpl; [| |done].
  - unfold small_emoji_branch. rewrite Hse. simpl. rewrite Hnext. simpl. eauto.
  - split; [eauto|done].
Qed.

End small_emoji.

(** ** What one pass adds, and in which order *)

Section order.
Context {codec : PbCodec}.
Implicit Types (elems : list Elem.t) (elem : Elem.t) (res : list Element).

Lemma text_branch_app elem res new :
  text_branch elem [] = Ok new -> text_branch elem res = Ok (res ++ new).
Proof.
  unfold text_branch, bind. repeat case_match; try done.
  - by intros [= <-].
  - intros [= <-]. by rewrite app_nil_r.
Qed.

Lemma face_branch_app elem res :
  face_branch elem res = res ++ face_branch elem [].
Proof. unfold face_branch. case_match; [done|by rewrite app_nil_r]. Qed.

Lemma small_emoji_branch_app elems elem index res cursor new :
  small_emoji_branch elems elem index [] = Ok (cursor, new) ->
  small_emoji_branch elems elem index res = Ok (cursor, res ++ new).
Proof.
  unfold small_emoji_branch, bind. repeat case_match; try done.
  - by intros [= <- <-].
  - intros [= <- <-]. by rewrite app_nil_r.
Qed.

Lemma common_elem_branch_app elem index res cursor new :
  common_elem_branch elem index [] = Ok (Continue cursor new) ->
  common_elem_branch elem index res = Ok (Continue cursor (res ++ new)).
Proof.
  unfold common_elem_branch, bind. repeat case_match; try done.
  - by intros [= <- <-].
  - intros [= <- <-]. by rewrite app_nil_r.
  - intros [= <- <-]. by rewrite app_nil_r.
Qed.

(** A pass that falls through only appends, and what it appends does not
    depend on the list it was entered with. *)
Lemma loop_body_app elems index res cursor res' :
  loop_body elems index res = Ok (Continue cursor res') ->
  res' = res ++ emitted elems index
  /\ loop_body elems index [] = Ok (Continue cursor (emitted elems index)).
Proof.
  unfold emitted, loop_body. destruct (elems !! index) as [elem|]; [|done].
  unfold text_branch, small_emoji_branch, common_elem_branch, face_branch,
    bind, FromString, bytes_decode.
  repeat (case_match; simplify_eq/=; try done);
    intros; simplify_eq/=; rewrite <- ?app_assoc, ?app_nil_r; done.
Qed.

(** Only a poke record ends a pass in [break]. *)
Lemma loop_body_break elems index res res' :
  loop_body elems index res = Ok (Break res') ->
  exists elem, elems !! index = Some elem /\ is_poke elem = true.
Proof.
  unfold loop_body. destruct (elems !! index) as [elem|]; [|done].
  intros Hbody. exists elem. split; [done|]. revert Hbody.
  unfold common_elem_branch, is_poke, Elem.get_common_elem, bind, FromString.
  repeat (case_match; simplify_eq/=; try done).
Qed.

Lemma while_loop_order fuel elems index res out :
  (forall elem, elem ∈ elems -> is_poke elem = false) ->
  reaches elems index res ->
  while_loop fuel elems index res = Ok out ->
  exists positions,
    StronglySorted lt positions
    /\ Forall (fun p => (index <= p < length elems)%nat
                        /\ exists r, reaches elems p r) positions
    /\ out = res ++ concat (emitted elems <$> positions).
Proof.
  intros Hfree. revert index res.
  induction fuel as [|fuel IH]; intros index res Hreach; simpl;
    destruct (index <? length elems)%nat eqn:Hlt; try done.
  - intros [= <-]. exists []. simpl. rewrite app_nil_r.
    split_and!; constructor.
  - apply Nat.ltb_lt in Hlt.
    destruct (loop_body elems index res) as [[cursor res'|res']| |] eqn:Hbody;
      try done.
    + intros Hrest.
      pose proof (loop_body_forward _ _ _ _ _ Hbody) as Hforward.
      pose proof (loop_body_app _ _ _ _ _ Hbody) as [-> _].
      destruct (IH cursor _ (reaches_pass _ _ _ _ _ Hreach Hlt Hbody) Hrest)
        as (positions & Hsorted & Hpos & ->).
      exists (index :: positions). split_and!.
      * constructor; [done|].
        eapply Forall_impl; [exact Hpos|]. simpl. intros p [? _]. lia.
      * constructor; [split; [lia|eauto]|].
        eapply Forall_impl; [exact Hpos|]. simpl. intros p [? ?].
        split; [lia|done].
      * simpl. by rewrite app_assoc.
    + apply loop_body_break in Hbody as (elem & Hel & Hpoke).
      rewrite Hfree in Hpoke; [done|]. by eapply list_elem_of_lookup_2.
  - intros [= <-]. exists []. simpl. rewrite app_nil_r.
    split_and!; constructor.
Qed.

(** C9. On a sequence with no poke record, the list [parse_elements]
    returns is, block after block, what the records under the cursor added,
    taken at strictly increasing positions of the input: the elements come in
    the order of their source records. [[text("hi"), face(7)]] gives
    [[TextElement("hi"), FaceElement(7)]]. *)
Theorem parse_elements_order elems res :
  (forall elem, elem ∈ elems -> is_poke elem = false) ->
  parse_elements elems = Ok res ->
  (exists positions,
     StronglySorted lt positions
     /\ Forall (fun p => (p < length elems)%nat
                         /\ exists r, reaches elems p r) positions
     /\ res = concat (emitted elems <$> positions))
  /\ parse_elements [text_record (b "hi"); face_record 7]
     = Ok [TextElement (u "hi"); FaceElement 7].
Proof.
  intros Hfree Hparse. split; [|reflexivity].
  destruct (while_loop_order _ _ _ _ _ Hfree (reaches_start elems) Hparse)
    as (positions & Hsorted & Hpos & ->).
  exists positions. split_and!; [done| |done].
  eapply Forall_impl; [exact Hpos|]. simpl. intros p [? ?]. split; [lia|done].
Qed.
End order.

(** ** Records with several tags *)

Section tags.
Context {codec : PbCodec}.
Implicit Types (elems : list Elem.t) (elem : Elem.t) (res : list Element).

(** C10, as amended. The tags are tested one after the other on the same
    record, not as alternatives. When each branch, run on its own, goes
    through, a pass that does not meet a poke appends what the branches give
    in the order [text], [face], [small_emoji], [common_elem]: one element
    for each of [text], [face] and [small_emoji] that is set, then one
    [FaceElement] if [common_elem] is set with [service_type == 33], and
    nothing for a [common_elem] of another service type. A record with
    [text] and [face] gives a [TextElement] followed by a [FaceElement]. *)
Theorem tags_not_exclusive elems index res elem t cursor s cursor' c :
  elems !! index = Some elem ->
  text_branch elem [] = Ok t ->
  small_emoji_branch elems elem index [] = Ok (cursor, s) ->
  common_elem_branch elem cursor [] = Ok (Continue cursor' c) ->
  loop_body elems index res =
    Ok (Continue cursor' (res ++ t ++ face_branch elem [] ++ s ++ c))
  /\ (exists content,
        t = if HasField (Elem.text elem) then [TextElement content] else [])
  /\ face_branch elem [] =
       (if HasField (Elem.face elem)
        then [FaceElement (Face.index (Elem.get_face elem))] else [])
  /\ (exists caption,
        s = if HasField (Elem.small_emoji elem)
            then [SmallEmojiElement
                    (SmallEmoji.pack_id_sum (Elem.get_small_emoji elem)) caption]
            else [])
  /\ (exists face_index,
        c = if HasField (Elem.common_elem elem)
               && (CommonElem.service_type (Elem.get_common_elem elem) =? 33)
            then [FaceElement face_index] else [])
  /\ parse_elements [text_face_record (b "hi") 7]
     = Ok [TextElement (u "hi"); FaceElement 7].
Proof.
  intros Hel Ht Hs Hc. split_and!.
  - unfold loop_body. rewrite Hel, (text_branch_app _ res _ Ht). simpl.
    rewrite face_branch_app, <- app_assoc.
    rewrite (small_emoji_branch_app _ _ _ (res ++ t ++ face_branch elem []) _ _ Hs).
    simpl. rewrite (common_elem_branch_app _ _ _ _ _ Hc).
    by rewrite <- !app_assoc.
  - revert Ht. unfold text_branch, bind, bytes_decode.
    repeat case_match; try done; intros [= <-]; eauto. by exists [].
  - done.
  - revert Hs. unfold small_emoji_branch, bind, bytes_decode.
    repeat case_match; try done; intros [= <- <-]; eauto. by exists [].
  - revert Hc. unfold common_elem_branch, bind, FromString.
    destruct (HasField (Elem.common_elem elem)); simpl;
      repeat case_match; try done; intros [= <- <-]; eauto; by exists 0.
  - reflexivity.
Qed.
End tags.

(** ** [BuddyMessageDecoder] *)

Section buddy.
Context {codec : PbCodec}.
Import BuddyMessageDecoder.

Lemma has_content_guard (message : Msg.t) :
  negb (HasField (Msg.body message))
  || negb (HasField (MsgBody.rich_text (Msg.get_body message)))
  || bool_decide (content_elements message = [])
  || negb (HasField (Msg.content_head message)) = false
  <-> has_content message.
Proof.
  unfold has_content, content_elements, Msg.get_body, MsgBody.get_rich_text.
  destruct (Msg.body message) as [body|]; simpl;
    [|split; [done|by intros (_ & ? & ? & [=] & _)]].
  destruct (MsgBody.rich_text body) as [rich_text|] eqn:Hrich; simpl;
    [|split; [done|]; intros (_ & ? & ? & [= <-] & Hsome & _); congruence].
  destruct (Msg.content_head message); simpl.
  - rewrite orb_false_r. case_bool_decide as Hnil; split; try done.
    + intros (_ & ? & ? & [= <-] & Hsome & Hne). congruence.
    + intros _. split; [eauto|]. by exists body, rich_text.
  - rewrite orb_true_r. split; [done|]. by intros [[? [=]] _].
Qed.

(** C3, as amended. [decode_normal_buddy] returns no event, and raises
    nothing, exactly when the content head is missing or the content-element
    sequence is missing or empty. It returns a [PrivateMessage] exactly when
    both are there and [parse_elements] returns a list for the sequence; the
    event then carries [seq], [time], [from_uin], [from_nick] and [to_uin] of
    the head, the truth value of [auto_reply] of the content head, and that
    list. When both are there and [parse_elements] raises, the decoder raises
    the same exception and returns no event. *)
Theorem decode_normal_buddy_spec (message : Msg.t) :
  (decode_normal_buddy message = Ok None <-> ~ has_content message)
  /\ (forall event,
        decode_normal_buddy message = Ok (Some event) <->
        has_content message
        /\ exists elements,
             parse_elements (content_elements message) = Ok elements
             /\ event =
                  PrivateMessage
                    (MsgHead.seq (Msg.get_head message))
                    (MsgHead.time (Msg.get_head message))
                    (py_bool (ContentHead.auto_reply
                                (Msg.get_content_head message)))
                    (MsgHead.from_uin (Msg.get_head message))
                    (MsgHead.from_nick (Msg.get_head message))
                    (MsgHead.to_uin (Msg.get_head message))
                    elements)
  /\ (forall e,
        decode_normal_buddy message = Raise e <->
        has_content message /\ parse_elements (content_elements message) = Raise e)
  /\ decode_normal_buddy message <> OutOfFuel.
Proof.
  pose proof (has_content_guard message) as Hguard.
  pose proof (parse_elements_total (content_elements message)) as Htotal.
  unfold decode_normal_buddy. fold (content_elements message).
  destruct (_ || _) eqn:Hg.
  - assert (Hno : ~ has_content message).
    { intros Hc%Hguard. congruence. }
    split_and!; [done| | |done].
    + intros event. split; [done|]. by intros [? _].
    + intros e. split; [done|]. by intros [? _].
  - assert (Hyes : has_content message) by by apply Hguard.
    destruct (parse_elements (content_elements message)) as [elements|e|];
      simpl; [| |done].
    + split_and!; [split; done| |split; [done|by intros [_ [=]]]|done].
      intros event. split.
      * intros [= <-]. eauto.
      * by intros (_ & ? & [= <-] & ->).
    + split_and!; [split; done| | |done].
      * intros event. split; [done|]. by intros (_ & ? & [=] & _).
      * intros e'. split; [intros [= <-]; done|]. by intros [_ [= <-]].
Qed.

Lemma sub_decoders_lookup (c2c_cmd : Z)
    (Decoder : Msg.t -> result (option Event)) :
  sub_decoders !! c2c_cmd = Some Decoder <->
  (c2c_cmd = 11 \/ c2c_cmd = 175) /\ Decoder = decode_normal_buddy.
Proof.
  unfold sub_decoders.
  rewrite !lookup_insert_Some, lookup_empty. split.
  - intros [[<- <-]|[_ [[<- <-]|[_ [=]]]]]; auto.
  - intros [[-> | ->] ->]; [by left|right]. split; [done|by left].
Qed.

(** C8. Every entry of [MESSAGE_DECODERS], whatever the top-level command
    it is stored under, is [BuddyMessageDecoder.decode]; on a message whose
    [c2c_cmd] is neither 11 nor 175 it logs one debug record, returns no
    event and raises nothing. The sub-decoder table maps
    exactly 11 and 175, both to [decode_normal_buddy]. *)
Theorem unmapped_c2c_cmd (msg_type : Z)
    (decoder : Msg.t -> traced (option Event)) (message : Msg.t) :
  MESSAGE_DECODERS !! msg_type = Some decoder ->
  MsgHead.c2c_cmd (Msg.get_head message) <> 11 ->
  MsgHead.c2c_cmd (Msg.get_head message) <> 175 ->
  decoder = decode
  /\ (exists record, decoder message = ([record], Ok None))
  /\ decoder message =
       ([debug ("MessageSvc.PbGetMsg: BuddyMessageDecoder cannot decode message with c2c_cmd "
                +:+ pretty (MsgHead.c2c_cmd (Msg.get_head message)))],
        Ok None)
  /\ (forall c2c_cmd Decoder,
        sub_decoders !! c2c_cmd = Some Decoder <->
        (c2c_cmd = 11 \/ c2c_cmd = 175) /\ Decoder = decode_normal_buddy).
Proof.
  intros Hdecoder Hne11 Hne175.
  assert (Hdecode : decoder = decode).
  { unfold MESSAGE_DECODERS in Hdecoder.
    repeat (apply lookup_insert_Some in Hdecoder
              as [[_ <-]|[_ Hdecoder]]; [done|]).
    by rewrite lookup_empty in Hdecoder. }
  assert (Hmiss : sub_decoders !! MsgHead.c2c_cmd (Msg.get_head message) = None).
  { destruct (sub_decoders !! _) as [Decoder|] eqn:Hsub; [|done].
    apply sub_decoders_lookup in Hsub as [[?|?] _]; done. }
  subst decoder. unfold decode. rewrite Hmiss.
  split_and!; [done|eauto|done|apply sub_decoders_lookup].
Qed.
End buddy.

(** * Further properties of the decoder *)

(** ** How a scan ends *)

Section outcome.
Context {codec : PbCodec}.
Implicit Types (elems : list Elem.t) (elem : Elem.t) (res : list Element).

(** A scan that returns ran off the end of the sequence or met a [break];
    a scan that raises does so in a pass it reached. *)
Lemma while_loop_inv fuel elems index res :
  reaches elems index res ->
  match while_loop fuel elems index res with
  | Ok out =>
    reaches elems (length elems) out
    \/ exists i r,
         reaches elems i r /\ (i < length elems)%nat
         /\ loop_body elems i r = Ok (Break out)
  | Raise e =>
    exists i r,
      reaches elems i r /\ (i < length elems)%nat
      /\ loop_body elems i r = Raise e
  | OutOfFuel => True
  end.
Proof.
  revert index res. induction fuel as [|fuel IH]; intros index res Hreach; simpl;
    destruct (index <? length elems)%nat eqn:Hlt; try done.
  - apply Nat.ltb_ge in Hlt. pose proof (reaches_cursor _ _ _ Hreach).
    left. by replace (length elems) with index by lia.
  - apply Nat.ltb_lt in Hlt.
    destruct (loop_body elems index res) as [[cursor res'|res']|e|] eqn:Hbody;
      try done.
    + apply IH. by eapply reaches_pass.
    + right. by exists index, res.
    + by exists index, res.
  - apply Nat.ltb_ge in Hlt. pose proof (reaches_cursor _ _ _ Hreach).
    left. by replace (length elems) with index by lia.
Qed.

Lemma parse_elements_Ok_inv elems out :
  parse_elements elems = Ok out ->
  reaches elems (length elems) out
  \/ exists i r,
       reaches elems i r /\ (i < length elems)%nat
       /\ loop_body elems i r = Ok (Break out).
Proof.
  intros Hparse.
  pose proof (while_loop_inv (length elems) elems 0 [] (reaches_start _)) as H.
  unfold parse_elements in Hparse. by rewrite Hparse in H.
Qed.

Lemma parse_elements_Raise_inv elems e :
  parse_elements elems = Raise e ->
  exists i r,
    reaches elems i r /\ (i < length elems)%nat
    /\ loop_body elems i r = Raise e.
Proof.
  intros Hparse.
  pose proof (while_loop_inv (length elems) elems 0 [] (reaches_start _)) as H.
  unfold parse_elements in Hparse. by rewrite Hparse in H.
Qed.

(** The ways in which one pass can raise. *)
Lemma loop_body_Raise elems index res elem e :
  elems !! index = Some elem ->
  loop_body elems index res = Raise e ->
  (e = UnicodeDecodeError
   /\ exists t, Elem.text elem = Some t /\ utf8_decode (Text.str t) = None)
  \/ (is_Some (Elem.small_emoji elem)
      /\ ((e = IndexError /\ elems !! S index = None)
          \/ (e = UnicodeDecodeError
              /\ exists next t,
                   elems !! S index = Some next /\ Elem.text next = Some t
                   /\ utf8_decode (Text.str t) = None)))
  \/ (exists ce,
        Elem.common_elem elem = Some ce
        /\ ((CommonElem.service_type ce = 2
             /\ ((e = DecodeError
                  /\ servtype2_FromString (CommonElem.pb_elem ce) = None)
                 \/ (e = UnicodeDecodeError
                     /\ exists poke,
                          servtype2_FromString (CommonElem.pb_elem ce) = Some poke
                          /\ utf8_decode (MsgElemInfo_servtype2.vaspoke_name poke)
                             = None)))
            \/ (CommonElem.service_type ce = 33 /\ e = DecodeError
                /\ servtype33_FromString (CommonElem.pb_elem ce) = None))).
Proof.
  intros Hel. unfold loop_body. rewrite Hel.
  destruct (text_branch elem res) as [res1|e1|] eqn:Htext; simpl.
  - destruct (small_emoji_branch elems elem index (face_branch elem res1))
      as [[cursor res2]|e2|] eqn:Hse; simpl.
    + intros Hce. right. right. revert Hce.
      unfold common_elem_branch, Elem.get_common_elem.
      destruct (Elem.common_elem elem) as [ce|]; simpl; [|done].
      exists ce. split; [done|].
      destruct (Z.eqb_spec (CommonElem.service_type ce) 2) as [H2|H2].
      * left. split; [done|]. revert Hce. unfold FromString, bytes_decode.
        destruct (servtype2_FromString _) as [poke|]; simpl;
          [|intros [= <-]; by left].
        destruct (utf8_decode _) eqn:Hname; simpl; [done|].
        intros [= <-]. right. split; [done|]. by exists poke.
      * destruct (Z.eqb_spec (CommonElem.service_type ce) 33) as [H33|H33];
          [|done].
        right. revert Hce. unfold FromString.
        by destruct (servtype33_FromString _); simpl; [|intros [= <-]].
    + intros [= <-]. right. left. revert Hse.
      unfold small_emoji_branch.
      destruct (Elem.small_emoji elem) as [se|] eqn:Hsome; simpl; [|done].
      intros Hse. split; [by eexists|]. revert Hse.
      replace (index + 1)%nat with (S index) by lia.
      destruct (elems !! S index) as [next|]; [|intros [= <-]; by left].
      unfold bytes_decode, Elem.get_text.
      destruct (Elem.text next) as [t|] eqn:Hnext; simpl; [|done].
      destruct (utf8_decode (Text.str t)) eqn:Hdec; simpl; [done|].
      intros [= <-]. right. split; [done|]. by exists next, t.
    + intros _. revert Hse. unfold small_emoji_branch, bind, bytes_decode.
      by repeat case_match.
  - intros [= <-]. left. revert Htext.
    unfold text_branch, bytes_decode, Elem.get_text.
    destruct (Elem.text elem) as [t|]; simpl; [|done].
    destruct (utf8_decode (Text.str t)) eqn:Hdec; simpl; [done|].
    intros [= <-]. split; [done|]. by exists t.
  - by destruct (text_branch_fuel elem res).
Qed.

(** X1. The loop of [parse_elements] comes to an end within [len(elems)]
    passes: every call returns a list or raises one of the three
    exceptions. *)
Theorem parse_elements_terminates elems :
  (exists res, parse_elements elems = Ok res)
  \/ (exists e, parse_elements elems = Raise e).
Proof.
  pose proof (while_loop_total (length elems) elems 0 []) as Htotal.
  unfold parse_elements.
  destruct (while_loop _ _ _ _); [eauto|eauto|]. exfalso. apply Htotal; [lia|done].
Qed.

(** X2. [parse_elements] raises [IndexError] only on a sequence whose final
    record carries [small_emoji]. *)
Theorem index_error_only_trailing_small_emoji elems :
  parse_elements elems = Raise IndexError ->
  exists elem, last elems = Some elem /\ is_Some (Elem.small_emoji elem).
Proof.
  intros (i & r & _ & Hlt & Hbody)%parse_elements_Raise_inv.
  destruct (lookup_lt_is_Some_2 elems i Hlt) as [elem Hel].
  exists elem.
  destruct (loop_body_Raise _ _ _ _ _ Hel Hbody)
    as [[[=] _]|[[Hse [[_ Hnone]|[[=] _]]]|(ce & _ & Hce)]].
  - split; [|done]. rewrite last_lookup.
    apply lookup_ge_None in Hnone.
    by replace (pred (length elems)) with i by lia.
  - by destruct Hce as [[_ [[[=] _]|[[=] _]]]|(_ & [=] & _)].
Qed.

(** X3. [parse_elements] raises protobuf's [DecodeError] only when some
    record carries a [common_elem] of service type 2 or 33 whose embedded
    payload the matching parser rejects. *)
Theorem decode_error_only_malformed_payload elems :
  parse_elements elems = Raise DecodeError ->
  exists elem ce,
    elem ∈ elems /\ Elem.common_elem elem = Some ce
    /\ ((CommonElem.service_type ce = 2
         /\ servtype2_FromString (CommonElem.pb_elem ce) = None)
        \/ (CommonElem.service_type ce = 33
            /\ servtype33_FromString (CommonElem.pb_elem ce) = None)).
Proof.
  intros (i & r & _ & Hlt & Hbody)%parse_elements_Raise_inv.
  destruct (lookup_lt_is_Some_2 elems i Hlt) as [elem Hel].
  destruct (loop_body_Raise _ _ _ _ _ Hel Hbody)
    as [[[=] _]|[[_ [[[=] _]|[[=] _]]]|(ce & Hce & Hcase)]].
  exists elem, ce. split; [by eapply list_elem_of_lookup_2|]. split; [done|].
  destruct Hcase as [[H2 [[_ Hnone]|[[=] _]]]|(H33 & _ & Hnone)]; auto.
Qed.

(** X4. [parse_elements] raises [UnicodeDecodeError] only when the [text]
    payload of some record, or the name in the poke payload of some record,
    is not UTF-8. *)
Theorem unicode_error_only_invalid_utf8 elems :
  parse_elements elems = Raise UnicodeDecodeError ->
  exists elem,
    elem ∈ elems
    /\ ((exists t,
           Elem.text elem = Some t /\ utf8_decode (Text.str t) = None)
        \/ (exists ce poke,
              Elem.common_elem elem = Some ce
              /\ CommonElem.service_type ce = 2
              /\ servtype2_FromString (CommonElem.pb_elem ce) = Some poke
              /\ utf8_decode (MsgElemInfo_servtype2.vaspoke_name poke) = None)).
Proof.
  intros (i & r & _ & Hlt & Hbody)%parse_elements_Raise_inv.
  destruct (lookup_lt_is_Some_2 elems i Hlt) as [elem Hel].
  destruct (loop_body_Raise _ _ _ _ _ Hel Hbody)
    as [[_ Htext]|[[_ [[[=] _]|[_ (next & t & Hnext & Ht & Hdec)]]]
                  |(ce & Hce & Hcase)]].
  - exists elem. split; [by eapply list_elem_of_lookup_2|]. by left.
  - exists next. split; [by eapply list_elem_of_lookup_2|]. left. by exists t.
  - exists elem. split; [by eapply list_elem_of_lookup_2|]. right.
    destruct Hcase as [[H2 [[[=] _]|[_ (poke & Hpoke & Hname)]]]|(_ & [=] & _)].
    by exists ce, poke.
Qed.

(** X5. On a sequence whose final record does not carry [small_emoji], on
    which every [text] payload is UTF-8, and every payload of a
    [common_elem] of service type 2 or 33 is accepted by its parser, with a
    UTF-8 poke name, [parse_elements] returns a list. *)
Theorem parse_elements_returns elems :
  (forall elem, last elems = Some elem -> Elem.small_emoji elem = None) ->
  (forall elem t,
     elem ∈ elems -> Elem.text elem = Some t ->
     is_Some (utf8_decode (Text.str t))) ->
  (forall elem ce,
     elem ∈ elems -> Elem.common_elem elem = Some ce ->
     CommonElem.service_type ce = 2 ->
     exists poke,
       servtype2_FromString (CommonElem.pb_elem ce) = Some poke
       /\ is_Some (utf8_decode (MsgElemInfo_servtype2.vaspoke_name poke))) ->
  (forall elem ce,
     elem ∈ elems -> Elem.common_elem elem = Some ce ->
     CommonElem.service_type ce = 33 ->
     is_Some (servtype33_FromString (CommonElem.pb_elem ce))) ->
  exists res, parse_elements elems = Ok res.
Proof.
  intros Hlast Htext Hpoke Hface.
  pose proof (while_loop_total (length elems) elems 0 []) as Htotal.
  destruct (parse_elements elems) as [res|e|] eqn:Hparse; [eauto| |].
  - exfalso.
    apply parse_elements_Raise_inv in Hparse as (i & r & _ & Hlt & Hbody).
    destruct (lookup_lt_is_Some_2 elems i Hlt) as [elem Hel].
    pose proof (list_elem_of_lookup_2 _ _ _ Hel) as Hin.
    destruct (loop_body_Raise _ _ _ _ _ Hel Hbody)
      as [[_ (t & Ht & Hdec)]
         |[[Hse [[_ Hnone]|[_ (next & t & Hnext & Ht & Hdec)]]]
          |(ce & Hce & Hcase)]].
    + destruct (Htext _ _ Hin Ht) as [? ?]. congruence.
    + apply lookup_ge_None in Hnone.
      rewrite (Hlast elem) in Hse; [by destruct Hse|].
      rewrite last_lookup. by replace (pred (length elems)) with i by lia.
    + destruct (Htext _ _ (list_elem_of_lookup_2 _ _ _ Hnext) Ht) as [? ?].
      congruence.
    + destruct Hcase as [[H2 Hcase]|(H33 & _ & Hnone)].
      * destruct (Hpoke _ _ Hin Hce H2) as (poke & Hsome & [name Hname]).
        destruct Hcase as [[_ Hnone]|[_ (poke' & Hsome' & Hname')]];
          congruence.
      * destruct (Hface _ _ Hin Hce H33) as [? ?]. congruence.
  - exfalso. apply Htotal; [lia|done].
Qed.
End outcome.

(** ** What the returned list holds *)

Section contents.
Context {codec : PbCodec}.
Implicit Types (elems : list Elem.t) (elem : Elem.t) (res : list Element).

(** A property of the list that holds at the start and that every pass
    falling through keeps holds whenever the guard is tested. *)
Lemma reaches_invariant elems (P : nat -> list Element -> Prop) :
  P 0%nat [] ->
  (forall index res index' res' elem,
     reaches elems index res -> P index res ->
     elems !! index = Some elem ->
     loop_body elems index res = Ok (Continue index' res') ->
     P index' res') ->
  forall index res, reaches elems index res -> P index res.
Proof.
  intros Hstart Hpass index res Hreach.
  induction Hreach as [|i r i' r' Hreach IH Hlt Hbody]; [done|].
  destruct (lookup_lt_is_Some_2 elems i Hlt) as [elem Hel]. eauto.
Qed.

Lemma loop_body_Break_poke elems index res out :
  loop_body elems index res = Ok (Break out) ->
  exists id name strength double_hit,
    out = [PokeElement id name strength double_hit].
Proof.
  unfold loop_body. destruct (elems !! index) as [elem|]; [|done].
  destruct (text_branch elem res); simpl; [|done..].
  destruct (small_emoji_branch _ _ _ _) as [[cursor res2]| |]; simpl; [|done..].
  unfold common_elem_branch, bind, FromString, bytes_decode.
  repeat case_match; try done; intros [= <-]; eauto 10.
Qed.

Lemma emitted_no_poke elems index cursor new :
  loop_body elems index [] = Ok (Continue cursor new) ->
  Forall (fun x => is_poke_element x = false) new.
Proof.
  unfold loop_body. destruct (elems !! index) as [elem|]; [|done].
  unfold text_branch, face_branch, small_emoji_branch, common_elem_branch,
    bind, FromString, bytes_decode.
  repeat (case_match; simplify_eq/=; try done);
    intros; simplify_eq/=; repeat constructor.
Qed.

Lemma reaches_no_poke elems index res :
  reaches elems index res -> Forall (fun x => is_poke_element x = false) res.
Proof.
  revert index res.
  apply (reaches_invariant elems
           (fun _ res => Forall (fun x => is_poke_element x = false) res));
    [constructor|].
  intros index res index' res' elem _ IH _ Hbody.
  apply loop_body_app in Hbody as [-> Hnew].
  apply Forall_app. split; [done|]. by eapply emitted_no_poke.
Qed.

(** X6. A [PokeElement] never stands beside other elements: if the list
    [parse_elements] returns holds one, it holds nothing else. *)
Theorem poke_element_stands_alone elems res x :
  parse_elements elems = Ok res ->
  x ∈ res ->
  is_poke_element x = true ->
  res = [x].
Proof.
  intros [Hend|(i & r & _ & _ & Hbody)]%parse_elements_Ok_inv Hin Hpoke.
  - apply reaches_no_poke in Hend.
    rewrite Forall_forall in Hend. rewrite (Hend x Hin) in Hpoke. done.
  - apply loop_body_Break_poke in Hbody as (id & name & s & d & ->).
    apply list_elem_of_singleton in Hin. by subst.
Qed.

(** One pass adds at most as many elements as the record under the cursor
    has recognized tags. *)
Lemma emitted_length elems index elem cursor new :
  elems !! index = Some elem ->
  loop_body elems index [] = Ok (Continue cursor new) ->
  (length new <= recognized_tags elem)%nat.
Proof.
  intros Hel. unfold loop_body. rewrite Hel.
  unfold text_branch, face_branch, small_emoji_branch, common_elem_branch,
    recognized_tags, bind, FromString, bytes_decode.
  repeat (case_match; simplify_eq/=; try done);
    intros; simplify_eq/=; lia.
Qed.

Lemma total_tags_take_lt elems index index' elem :
  (index < index')%nat ->
  elems !! index = Some elem ->
  (total_tags (take index elems) + recognized_tags elem
   <= total_tags (take index' elems))%nat.
Proof.
  unfold total_tags. revert index index'.
  induction elems as [|x elems IH]; intros index index' Hlt Hel; [done|].
  destruct index' as [|index']; [lia|].
  destruct index as [|index]; simpl in *.
  - simplify_eq. apply Nat.le_add_r.
  - rewrite <- Nat.add_assoc. apply Nat.add_le_mono_l, IH; [lia|done].
Qed.

Lemma total_tags_take elems index :
  (total_tags (take index elems) <= total_tags elems)%nat.
Proof.
  unfold total_tags. revert index.
  induction elems as [|x elems IH]; intros [|index]; simpl; try lia.
  apply Nat.add_le_mono_l, IH.
Qed.

Lemma total_tags_elem elems elem :
  elem ∈ elems -> (recognized_tags elem <= total_tags elems)%nat.
Proof.
  unfold total_tags. induction 1 as [|x y elems _ IH]; simpl.
  - apply Nat.le_add_r.
  - etrans; [exact IH|]. apply Nat.le_add_l.
Qed.

Lemma reaches_length elems index res :
  reaches elems index res ->
  (length res <= total_tags (take index elems))%nat.
Proof.
  revert index res.
  apply (reaches_invariant elems
           (fun index res =>
              (length res <= total_tags (take index elems))%nat));
    [simpl; lia|].
  intros index res index' res' elem _ IH Hel Hbody.
  pose proof (loop_body_forward _ _ _ _ _ Hbody) as [Hlt _].
  apply loop_body_app in Hbody as [-> Hnew].
  pose proof (emitted_length _ _ _ _ _ Hel Hnew).
  pose proof (total_tags_take_lt _ _ _ _ Hlt Hel).
  rewrite length_app. lia.
Qed.

(** X7. [parse_elements] returns at most one element for each recognized
    tag set in the sequence. *)
Theorem parse_elements_length elems res :
  parse_elements elems = Ok res ->
  (length res <= total_tags elems)%nat.
Proof.
  intros [Hend|(i & r & _ & Hlt & Hbody)]%parse_elements_Ok_inv.
  - apply reaches_length in Hend.
    pose proof (total_tags_take elems (length elems)). lia.
  - apply loop_body_Break_poke in Hbody as Hshape.
    destruct Hshape as (id & name & s & d & ->).
    apply loop_body_break in Hbody as (elem & Hel & Hpoke).
    apply list_elem_of_lookup_2, total_tags_elem in Hel.
    assert (1 <= recognized_tags elem)%nat; [|simpl; lia].
    unfold is_poke in Hpoke. unfold recognized_tags.
    destruct (Elem.common_elem elem); [simpl; lia|done].
Qed.
End contents.

(** ** Where the returned elements come from *)

Section provenance.
Context {codec : PbCodec}.
Implicit Types (elems : list Elem.t) (elem : Elem.t) (res : list Element).

Lemma text_branch_comes_from elems elem res res' :
  elem ∈ elems ->
  text_branch elem res = Ok res' ->
  Forall (comes_from elems) res -> Forall (comes_from elems) res'.
Proof.
  intros Hin. unfold text_branch, bytes_decode, Elem.get_text.
  destruct (Elem.text elem) as [t|] eqn:Ht; simpl; [|by intros [= <-]].
  destruct (utf8_decode (Text.str t)) as [content|] eqn:Hdec; simpl; [|done].
  intros [= <-] Hres. apply Forall_app. split; [done|].
  apply Forall_singleton. simpl. by exists elem, t.
Qed.

Lemma face_branch_comes_from elems elem res :
  elem ∈ elems ->
  Forall (comes_from elems) res ->
  Forall (comes_from elems) (face_branch elem res).
Proof.
  intros Hin Hres. unfold face_branch, Elem.get_face.
  destruct (Elem.face elem) as [f|] eqn:Hf; simpl; [|done].
  apply Forall_app. split; [done|].
  apply Forall_singleton. simpl. left. by exists elem, f.
Qed.

Lemma small_emoji_branch_comes_from elems elem index res cursor res' :
  elems !! index = Some elem ->
  small_emoji_branch elems elem index res = Ok (cursor, res') ->
  Forall (comes_from elems) res -> Forall (comes_from elems) res'.
Proof.
  intros Hel. unfold small_emoji_branch, bytes_decode, Elem.get_small_emoji.
  destruct (Elem.small_emoji elem) as [se|] eqn:Hse; simpl;
    [|by intros [= <- <-]].
  replace (index + 1)%nat with (S index) by lia.
  destruct (elems !! S index) as [next|] eqn:Hnext; [|done].
  destruct (utf8_decode _) as [text|] eqn:Hdec; simpl; [|done].
  intros [= <- <-] Hres. apply Forall_app. split; [done|].
  apply Forall_singleton. simpl. by exists index, elem, se, next.
Qed.

Lemma common_elem_branch_comes_from elems elem index res out :
  elem ∈ elems ->
  common_elem_branch elem index res = Ok out ->
  Forall (comes_from elems) res ->
  Forall (comes_from elems)
    (match out with Continue _ res' => res' | Break res' => res' end).
Proof.
  intros Hin. unfold common_elem_branch, Elem.get_common_elem.
  destruct (Elem.common_elem elem) as [ce|] eqn:Hce; simpl;
    [|by intros [= <-]].
  destruct (Z.eqb_spec (CommonElem.service_type ce) 2) as [H2|H2].
  - unfold FromString, bytes_decode.
    destruct (servtype2_FromString _) as [poke|] eqn:Hpoke; simpl; [|done].
    destruct (utf8_decode _) as [name|] eqn:Hname; simpl; [|done].
    intros [= <-] _. apply Forall_singleton. simpl.
    by exists elem, ce, poke.
  - destruct (Z.eqb_spec (CommonElem.service_type ce) 33) as [H33|H33];
      [|by intros [= <-]].
    unfold FromString.
    destruct (servtype33_FromString _) as [info|] eqn:Hinfo; simpl; [|done].
    intros [= <-] Hres. apply Forall_app. split; [done|].
    apply Forall_singleton. simpl. right. by exists elem, ce, info.
Qed.

Lemma loop_body_comes_from elems index res out :
  loop_body elems index res = Ok out ->
  Forall (comes_from elems) res ->
  Forall (comes_from elems)
    (match out with Continue _ res' => res' | Break res' => res' end).
Proof.
  unfold loop_body. destruct (elems !! index) as [elem|] eqn:Hel; [|done].
  pose proof (list_elem_of_lookup_2 _ _ _ Hel) as Hin.
  destruct (text_branch elem res) as [res1| |] eqn:Htext; simpl; [|done..].
  destruct (small_emoji_branch _ _ _ _) as [[cursor res2]| |] eqn:Hse; simpl;
    [|done..].
  intros Hce Hres. eapply common_elem_branch_comes_from; [done..|].
  eapply small_emoji_branch_comes_from; [done..|].
  apply face_branch_comes_from; [done|].
  by eapply text_branch_comes_from.
Qed.

(** X8. [parse_elements] makes nothing up: every element of the list it
    returns is carried by a record of the sequence (for a
    [SmallEmojiElement], by a [small_emoji] record and the record after
    it). *)
Theorem parse_elements_comes_from elems res :
  parse_elements elems = Ok res -> Forall (comes_from elems) res.
Proof.
  assert (Hinv : forall index r,
             reaches elems index r -> Forall (comes_from elems) r).
  { apply (reaches_invariant elems (fun _ r => Forall (comes_from elems) r));
      [constructor|].
    intros index r index' r' elem _ IH _ Hbody.
    by apply (loop_body_comes_from _ _ _ _ Hbody). }
  intros [Hend|(i & r & Hreach & _ & Hbody)]%parse_elements_Ok_inv; [eauto|].
  apply (loop_body_comes_from _ _ _ _ Hbody). eauto.
Qed.
End provenance.

(** ** Sequences put end to end *)

Section append.
Context {codec : PbCodec}.
Implicit Types (elems xs ys : list Elem.t) (elem : Elem.t)
  (res : list Element).

Lemma loop_body_app_l xs ys index res out :
  loop_body xs index res = Ok out ->
  loop_body (xs ++ ys) index res = Ok out.
Proof.
  unfold loop_body. destruct (xs !! index) as [elem|] eqn:Hel; [|done].
  rewrite (lookup_app_l_Some _ _ _ _ Hel).
  destruct (text_branch elem res) as [res1| |]; simpl; [|done..].
  assert (Hse : forall moved,
             small_emoji_branch xs elem index (face_branch elem res1) = Ok moved ->
             small_emoji_branch (xs ++ ys) elem index (face_branch elem res1)
             = Ok moved).
  { intros moved. unfold small_emoji_branch.
    destruct (HasField _); [|done].
    destruct (xs !! (index + 1)%nat) as [next|] eqn:Hnext; [|done].
    by rewrite (lookup_app_l_Some _ _ _ _ Hnext). }
  destruct (small_emoji_branch xs _ _ _) as [moved| |]; simpl; [|done..].
  by rewrite (Hse moved eq_refl).
Qed.

Lemma reaches_app_l xs ys index res :
  reaches xs index res -> reaches (xs ++ ys) index res.
Proof.
  induction 1 as [|i r i' r' _ IH Hlt Hbody]; [constructor|].
  eapply reaches_pass; [exact IH| |by apply loop_body_app_l].
  rewrite length_app. lia.
Qed.

(** A pass over the second sequence, seen from the two put end to end. *)
Lemma loop_body_shift xs ys index res1 res :
  loop_body (xs ++ ys) (length xs + index) (res1 ++ res) =
    match loop_body ys index res with
    | Ok (Continue index' res') =>
      Ok (Continue (length xs + index') (res1 ++ res'))
    | Ok (Break out) => Ok (Break out)
    | Raise e => Raise e
    | OutOfFuel => OutOfFuel
    end.
Proof.
  unfold loop_body, small_emoji_branch.
  replace (length xs + index + 1)%nat with (length xs + (index + 1))%nat by lia.
  rewrite !lookup_app_r by lia.
  replace (length xs + index - length xs)%nat with index by lia.
  replace (length xs + (index + 1) - length xs)%nat with (index + 1)%nat by lia.
  destruct (ys !! index) as [elem|]; [|done].
  unfold text_branch, face_branch, common_elem_branch, bind, FromString,
    bytes_decode.
  repeat (case_match; simplify_eq/=; try done);
    rewrite <- ?app_assoc; do 2 f_equal; lia.
Qed.

Lemma existsb_no_poke res :
  Forall (fun x => is_poke_element x = false) res ->
  existsb is_poke_element res = false.
Proof. induction 1 as [|x res Hx _ IH]; simpl; [done|]. by rewrite Hx. Qed.

Lemma while_loop_shift fuel xs ys index res1 res :
  Forall (fun x => is_poke_element x = false) res ->
  while_loop fuel (xs ++ ys) (length xs + index) (res1 ++ res) =
    do out <- while_loop fuel ys index res;
    Ok (if existsb is_poke_element out then out else res1 ++ out).
Proof.
  revert index res. induction fuel as [|fuel IH]; intros index res Hres; simpl;
    rewrite length_app;
    replace (length xs + index <? length xs + length ys)%nat
      with (index <? length ys)%nat
      by (destruct (Nat.ltb_spec index (length ys));
          destruct (Nat.ltb_spec (length xs + index) (length xs + length ys));
          done || lia);
    destruct (index <? length ys)%nat; simpl;
    rewrite ?(existsb_no_poke _ Hres); try done.
  rewrite loop_body_shift.
  destruct (loop_body ys index res) as [[index' res'|out]| |] eqn:Hbody;
    simpl; try done.
  - apply IH. apply loop_body_app in Hbody as [-> Hnew].
    apply Forall_app. split; [done|]. by eapply emitted_no_poke.
  - by apply loop_body_Break_poke in Hbody as (? & ? & ? & ? & ->).
Qed.

(** X9. Putting a second sequence after one on which [parse_elements]
    returns: if the first list holds a poke, the first list is the result;
    otherwise the second sequence is parsed on its own, its exception is
    raised if it raises, its list is the result if that list holds a poke,
    and else the two lists end to end are the result. *)
Theorem parse_elements_app xs ys res1 :
  parse_elements xs = Ok res1 ->
  parse_elements (xs ++ ys) =
    if existsb is_poke_element res1 then Ok res1
    else
      do res2 <- parse_elements ys;
      Ok (if existsb is_poke_element res2 then res2 else res1 ++ res2).
Proof.
  intros [Hend|(i & r & Hreach & Hlt & Hbody)]%parse_elements_Ok_inv.
  - rewrite (existsb_no_poke _ (reaches_no_poke _ _ _ Hend)).
    rewrite (reaches_parse _ _ _ (length (xs ++ ys)) (reaches_app_l _ ys _ _ Hend))
      by (rewrite length_app; lia).
    pose proof (while_loop_shift (length (xs ++ ys)) xs ys 0 res1 []
                  (Forall_nil_2 _)) as Hshift.
    rewrite Nat.add_0_r, app_nil_r in Hshift. rewrite Hshift.
    unfold parse_elements.
    by rewrite (while_loop_fuel (length (xs ++ ys)) (length ys))
      by (rewrite ?length_app; lia).
  - pose proof (loop_body_Break_poke _ _ _ _ Hbody) as (? & ? & ? & ? & ->).
    simpl.
    rewrite (reaches_parse_pass _ _ _ (reaches_app_l _ ys _ _ Hreach))
      by (rewrite length_app; lia).
    by rewrite (loop_body_app_l _ ys _ _ _ Hbody).
Qed.
End append.

(** ** Records that are not decoded, and plain records *)

Section plain.
Context {codec : PbCodec}.
Implicit Types (elems : list Elem.t) (elem : Elem.t) (res : list Element).

Lemma loop_body_plain elems index res elem :
  elems !! index = Some elem ->
  Elem.small_emoji elem = None ->
  Elem.common_elem elem = None ->
  loop_body elems index res =
    match plain_elements elem with
    | Some new => Ok (Continue (S index) (res ++ new))
    | None => Raise UnicodeDecodeError
    end.
Proof.
  intros Hel Hse Hce. unfold loop_body. rewrite Hel.
  unfold text_branch, small_emoji_branch, common_elem_branch, plain_elements,
    bytes_decode, Elem.get_text.
  rewrite Hse, Hce.
  destruct (Elem.text elem) as [t|]; simpl.
  - destruct (utf8_decode (Text.str t)); simpl; [|done].
    by rewrite Nat.add_1_r, face_branch_app, <- app_assoc.
  - by rewrite Nat.add_1_r, face_branch_app.
Qed.

Lemma while_loop_plain fuel elems index res :
  (forall elem,
     elem ∈ elems ->
     Elem.small_emoji elem = None /\ Elem.common_elem elem = None) ->
  (length elems <= index + fuel)%nat ->
  while_loop fuel elems index res =
    match mapM plain_elements (drop index elems) with
    | Some news => Ok (res ++ concat news)
    | None => Raise UnicodeDecodeError
    end.
Proof.
  intros Hplain. revert index res.
  induction fuel as [|fuel IH]; intros index res Hfuel; simpl;
    destruct (index <? length elems)%nat eqn:Hlt.
  - apply Nat.ltb_lt in Hlt. lia.
  - apply Nat.ltb_ge in Hlt. rewrite drop_ge by done. simpl.
    by rewrite app_nil_r.
  - apply Nat.ltb_lt in Hlt.
    destruct (lookup_lt_is_Some_2 elems index Hlt) as [elem Hel].
    destruct (Hplain elem (list_elem_of_lookup_2 _ _ _ Hel)) as [Hse Hce].
    rewrite (loop_body_plain _ _ _ _ Hel Hse Hce).
    rewrite (drop_S _ _ _ Hel). simpl.
    destruct (plain_elements elem) as [new|]; simpl; [|done].
    rewrite IH by lia.
    destruct (mapM plain_elements (drop (S index) elems)); simpl; [|done].
    by rewrite app_assoc.
  - apply Nat.ltb_ge in Hlt. rewrite drop_ge by done. simpl.
    by rewrite app_nil_r.
Qed.

(** X10. On a sequence in which no record carries [small_emoji] or
    [common_elem], [parse_elements] returns, record after record, the
    decoded text then the face of each record; it raises
    [UnicodeDecodeError] if some [text] payload is not UTF-8. *)
Theorem parse_elements_plain elems :
  (forall elem,
     elem ∈ elems ->
     Elem.small_emoji elem = None /\ Elem.common_elem elem = None) ->
  parse_elements elems =
    match mapM plain_elements elems with
    | Some news => Ok (concat news)
    | None => Raise UnicodeDecodeError
    end.
Proof.
  intros Hplain. unfold parse_elements.
  rewrite (while_loop_plain _ _ _ _ Hplain) by lia. by rewrite drop_0.
Qed.

Lemma plain_elements_undecoded elem :
  undecoded elem ->
  Elem.small_emoji elem = None /\ Elem.common_elem elem = None
  /\ plain_elements elem = Some [].
Proof.
  unfold undecoded, recognized_tags, plain_elements, face_branch.
  destruct (Elem.text elem), (Elem.face elem), (Elem.small_emoji elem),
    (Elem.common_elem elem); simpl; done || lia.
Qed.

Lemma parse_elements_undecoded elems :
  Forall undecoded elems -> parse_elements elems = Ok [].
Proof.
  intros Hun. unfold parse_elements.
  rewrite while_loop_plain; [rewrite drop_0| |lia].
  - assert (Hmap : mapM plain_elements elems = Some (replicate (length elems) [])).
    { apply mapM_Some_2. induction Hun as [|elem elems Hel _ IH]; simpl;
        constructor; [|done].
      by apply plain_elements_undecoded. }
    rewrite Hmap. clear. induction (length elems); simpl; [done|].
    by destruct (concat _).
  - intros elem Hin. rewrite Forall_forall in Hun.
    destruct (plain_elements_undecoded elem (Hun elem Hin)) as (? & ? & _).
    done.
Qed.
End plain.

(** ** From the command table to the event *)

Section dispatch.
Context {codec : PbCodec}.
Import BuddyMessageDecoder.

Lemma decode_normal_buddy_cases (message : Msg.t) :
  (~ has_content message /\ decode_normal_buddy message = Ok None)
  \/ (has_content message
      /\ decode_normal_buddy message =
           do elements <- parse_elements (content_elements message);
           Ok (Some (private_message message elements))).
Proof.
  pose proof (has_content_guard message) as Hguard.
  unfold decode_normal_buddy. fold (content_elements message).
  destruct (_ || _).
  - left. split; [|done]. intros Hc%Hguard. done.
  - right. split; [by apply Hguard|done].
Qed.

Lemma MESSAGE_DECODERS_lookup (msg_type : Z)
    (decoder : Msg.t -> traced (option Event)) :
  MESSAGE_DECODERS !! msg_type = Some decoder -> decoder = decode.
Proof.
  unfold MESSAGE_DECODERS. intros Hdecoder.
  repeat (apply lookup_insert_Some in Hdecoder
            as [[_ <-]|[_ Hdecoder]]; [done|]).
  by rewrite lookup_empty in Hdecoder.
Qed.

Lemma decode_cases (message : Msg.t) :
  (MsgHead.c2c_cmd (Msg.get_head message) <> 11
   /\ MsgHead.c2c_cmd (Msg.get_head message) <> 175
   /\ exists record, decode message = ([record], Ok None))
  \/ ((MsgHead.c2c_cmd (Msg.get_head message) = 11
       \/ MsgHead.c2c_cmd (Msg.get_head message) = 175)
      /\ decode message = ([], decode_normal_buddy message)).
Proof.
  unfold decode.
  destruct (sub_decoders !! _) as [Decoder|] eqn:Hsub.
  - right. apply sub_decoders_lookup in Hsub as [Hcmd ->]. done.
  - left. split_and!; [| |eauto].
    + intros Hcmd.
      assert (sub_decoders !! MsgHead.c2c_cmd (Msg.get_head message)
              = Some decode_normal_buddy) as Hsome
        by (apply sub_decoders_lookup; auto).
      congruence.
    + intros Hcmd.
      assert (sub_decoders !! MsgHead.c2c_cmd (Msg.get_head message)
              = Some decode_normal_buddy) as Hsome
        by (apply sub_decoders_lookup; auto).
      congruence.
Qed.

(** X11. A message with a content head whose content elements are all of
    kinds that are not decoded still gives a [PrivateMessage]; its list of
    elements is empty. *)
Theorem decode_normal_buddy_undecoded (message : Msg.t) :
  has_content message ->
  Forall undecoded (content_elements message) ->
  parse_elements (content_elements message) = Ok []
  /\ decode_normal_buddy message = Ok (Some (private_message message [])).
Proof.
  intros Hcontent Hun.
  pose proof (parse_elements_undecoded _ Hun) as Hparse.
  split; [done|].
  destruct (decode_normal_buddy_cases message) as [[Hno _]|[_ ->]]; [done|].
  by rewrite Hparse.
Qed.

(** X12. [BuddyMessageDecoder.decode] logs at most one record, and logs
    nothing exactly when [c2c_cmd] is 11 or 175; it then hands the message
    to [decode_normal_buddy] and returns its outcome. *)
Theorem decode_mapped (message : Msg.t) :
  ((decode message).1 = [] <->
   MsgHead.c2c_cmd (Msg.get_head message) = 11
   \/ MsgHead.c2c_cmd (Msg.get_head message) = 175)
  /\ (MsgHead.c2c_cmd (Msg.get_head message) = 11
      \/ MsgHead.c2c_cmd (Msg.get_head message) = 175 ->
      decode message = ([], decode_normal_buddy message))
  /\ (length (decode message).1 <= 1)%nat.
Proof.
  destruct (decode_cases message)
    as [(Hne11 & Hne175 & record & ->)|[Hcmd ->]]; simpl.
  - split_and!; [|intros [?|?]; done|lia].
    split; [done|]. intros [?|?]; done.
  - split_and!; [done|done|lia].
Qed.

(** X14. Whatever entry of the command table is used, a message lacking the
    content head or the content elements gives no event and no exception. *)
Theorem no_content_no_event (msg_type : Z)
    (decoder : Msg.t -> traced (option Event)) (message : Msg.t) :
  MESSAGE_DECODERS !! msg_type = Some decoder ->
  ~ has_content message ->
  (decoder message).2 = Ok None.
Proof.
  intros ->%MESSAGE_DECODERS_lookup Hno.
  destruct (decode_cases message) as [(_ & _ & record & ->)|[_ ->]]; [done|].
  simpl. by destruct (decode_normal_buddy_cases message) as [[_ ->]|[? _]].
Qed.

(** X15. An entry of the command table returns an event only for a message
    with [c2c_cmd] 11 or 175 that has a content head and content elements on
    which [parse_elements] returns; nothing is logged, and the event is the
    [PrivateMessage] made of the head fields and of the parsed list. *)
Theorem event_only_from_normal_buddy (msg_type : Z)
    (decoder : Msg.t -> traced (option Event)) (message : Msg.t)
    (log : list log_record) (event : Event) :
  MESSAGE_DECODERS !! msg_type = Some decoder ->
  decoder message = (log, Ok (Some event)) ->
  log = []
  /\ (MsgHead.c2c_cmd (Msg.get_head message) = 11
      \/ MsgHead.c2c_cmd (Msg.get_head message) = 175)
  /\ has_content message
  /\ exists elements,
       parse_elements (content_elements message) = Ok elements
       /\ event = private_message message elements.
Proof.
  intros ->%MESSAGE_DECODERS_lookup.
  destruct (decode_cases message) as [(_ & _ & record & ->)|[Hcmd ->]]; [done|].
  intros [= <- Hevent]. split_and!; [done|done| |];
    destruct (decode_normal_buddy_cases message) as [[_ Hnone]|[Hc Hsome]];
    try congruence; try done.
  rewrite Hsome in Hevent.
  destruct (parse_elements (content_elements message)) as [elements| |];
    simpl in Hevent; [|done..].
  exists elements. split; [done|]. congruence.
Qed.

(** X16. An entry of the command table raises only what [parse_elements]
    raises on the content elements of a message with [c2c_cmd] 11 or 175. *)
Theorem exception_only_from_parse_elements (msg_type : Z)
    (decoder : Msg.t -> traced (option Event)) (message : Msg.t) (e : exn) :
  MESSAGE_DECODERS !! msg_type = Some decoder ->
  (decoder message).2 = Raise e ->
  (MsgHead.c2c_cmd (Msg.get_head message) = 11
   \/ MsgHead.c2c_cmd (Msg.get_head message) = 175)
  /\ has_content message
  /\ parse_elements (content_elements message) = Raise e.
Proof.
  intros ->%MESSAGE_DECODERS_lookup.
  destruct (decode_cases message) as [(_ & _ & record & ->)|[Hcmd ->]]; [done|].
  simpl. intros Hraise.
  destruct (decode_normal_buddy_cases message) as [[_ Hnone]|[Hc Hsome]];
    [congruence|].
  split_and!; [done|done|]. rewrite Hsome in Hraise.
  destruct (parse_elements (content_elements message));
    simpl in Hraise; congruence.
Qed.
End dispatch.

(** * The properties on sample inputs *)

Section samples.
#[local] Existing Instance sample_codec.

(** ** Inputs on which the statements of the design document fail *)

(** C1 as stated fails: a poke record that follows a [small_emoji] record
    is read as the caption slot and never examined, so the sequence contains
    a poke record and yet the result holds no [PokeElement]. *)
Lemma poke_after_small_emoji_is_skipped :
  common_elem_record 2 (b "P")
    ∈ [small_emoji_record 1; common_elem_record 2 (b "P")]
  /\ is_poke (common_elem_record 2 (b "P")) = true
  /\ parse_elements [small_emoji_record 1; common_elem_record 2 (b "P")]
     = Ok [SmallEmojiElement 1 []]
  /\ ~ (exists id name strength double_hit,
          parse_elements [small_emoji_record 1; common_elem_record 2 (b "P")]
          = Ok [PokeElement id name strength double_hit]).
Proof.
  split_and!; [|done|done|].
  - apply list_elem_of_In. simpl. auto.
  - by intros (? & ? & ? & ? & [=]).
Qed.

(** C3 as stated fails: the content head and a non-empty content-element
    sequence are there, and no [PrivateMessage] is returned, because
    [parse_elements] raises. *)
Lemma decode_normal_buddy_parse_error :
  has_content (sample_message 11 [small_emoji_record 1])
  /\ BuddyMessageDecoder.decode_normal_buddy
       (sample_message 11 [small_emoji_record 1])
     = Raise IndexError
  /\ ~ (exists event,
          BuddyMessageDecoder.decode_normal_buddy
            (sample_message 11 [small_emoji_record 1])
          = Ok (Some event)).
Proof.
  split_and!.
  - split; [by eexists|]. by do 2 eexists.
  - done.
  - by intros (? & [=]).
Qed.

(** C4 as stated fails: the record at position 1 carries [small_emoji] and
    the record at position 2 carries [text], but position 1 was read as the
    caption slot of position 0, so no [SmallEmojiElement] pairs them and the
    record at position 2 gives a [TextElement]. *)
Lemma small_emoji_pair_not_under_cursor :
  [small_emoji_record 1; small_emoji_record 2; text_record (b "x")] !! 1%nat
    = Some (small_emoji_record 2)
  /\ is_Some (Elem.small_emoji (small_emoji_record 2))
  /\ [small_emoji_record 1; small_emoji_record 2; text_record (b "x")] !! 2%nat
     = Some (text_record (b "x"))
  /\ is_Some (Elem.text (text_record (b "x")))
  /\ parse_elements
       [small_emoji_record 1; small_emoji_record 2; text_record (b "x")]
     = Ok [SmallEmojiElement 1 []; TextElement (u "x")]
  /\ ~ (exists res,
          parse_elements
            [small_emoji_record 1; small_emoji_record 2; text_record (b "x")]
          = Ok res
          /\ SmallEmojiElement 2 (u "x") ∈ res).
Proof.
  split_and!; try done; try (by eexists).
  intros (res & [= <-] & Hin). apply list_elem_of_In in Hin. simpl in Hin.
  by destruct Hin as [[=]|[[=]|[]]].
Qed.

(** C5 as stated fails: the final record carries [small_emoji], but it was
    read as the caption slot of the record before it, and a list is
    returned. *)
Lemma trailing_small_emoji_as_caption :
  last [small_emoji_record 1; small_emoji_record 2] = Some (small_emoji_record 2)
  /\ is_Some (Elem.small_emoji (small_emoji_record 2))
  /\ parse_elements [small_emoji_record 1; small_emoji_record 2]
     = Ok [SmallEmojiElement 1 []]
  /\ ~ (exists e,
          parse_elements [small_emoji_record 1; small_emoji_record 2] = Raise e).
Proof.
  split_and!; try done; try (by eexists).
  by intros (e & [=]).
Qed.



(** C10 as stated fails: a record with the two recognized tags [text] and
    [common_elem] set, the latter with the unknown [service_type] 7, gives one
    element, not two. *)
Lemma text_and_unknown_common_elem :
  recognized_tags (text_common_elem_record (b "a") 7 []) = 2%nat
  /\ parse_elements [text_common_elem_record (b "a") 7 []]
     = Ok [TextElement (u "a")]
  /\ ~ (exists res,
          parse_elements [text_common_elem_record (b "a") 7 []] = Ok res
          /\ length res = recognized_tags (text_common_elem_record (b "a") 7 [])).
Proof.
  split_and!; try done.
  by intros (res & [= <-] & [=]).
Qed.

(** ** The theorems at work *)

Lemma parse_elements_poke_override_sample :
  parse_elements [text_record (b "a"); common_elem_record 2 (b "P")]
  = Ok [PokeElement 5 (u "Poke") 1 false].
Proof.
  apply (parse_elements_poke_override (codec := sample_codec)
           [text_record (b "a"); common_elem_record 2 (b "P")]
           1 [TextElement (u "a")] (common_elem_record 2 (b "P"))
           (1%nat, [TextElement (u "a")]) (sample_poke 0xFFFFFFFF) (u "Poke")).
  - eapply reaches_pass; [apply reaches_start|simpl; lia|reflexivity].
  - reflexivity.
  - reflexivity.
  - reflexivity.
  - reflexivity.
  - reflexivity.
Defined.

Lemma poke_identifier_sample :
  exists id,
    loop_body [common_elem_record 2 (b "Q")] 0 []
    = Ok (Break [PokeElement id (u "Poke") 1 false])
    /\ id = 99.
Proof.
  destruct (poke_identifier (codec := sample_codec) [common_elem_record 2 (b "Q")] 0 []
              (common_elem_record 2 (b "Q")) (0%nat, []) (sample_poke 99)
              (u "Poke") eq_refl eq_refl eq_refl eq_refl eq_refl)
    as (id & Hbody & _ & _ & H99).
  exists id. split; [exact Hbody|exact (H99 eq_refl)].
Defined.

Lemma small_emoji_caption_sample :
  loop_body [small_emoji_record 42; text_record (b "caption")] 0 []
  = Ok (Continue 2 [SmallEmojiElement 42 (u "caption")]).
Proof.
  exact (proj1 (proj2 (small_emoji_caption (codec := sample_codec)
                         [small_emoji_record 42; text_record (b "caption")]
                         0 [] (small_emoji_record 42)
                         {| SmallEmoji.pack_id_sum := 42;
                            SmallEmoji.image_type := 0 |}
                         [] (text_record (b "caption"))
                         {| Text.str := b "caption" |} (u "caption")
                         eq_refl eq_refl eq_refl eq_refl eq_refl eq_refl))
           eq_refl).
Defined.

Lemma trailing_small_emoji_aborts_sample :
  parse_elements [face_record 3; small_emoji_record 1] = Raise IndexError.
Proof.
  refine (proj2 (trailing_small_emoji_aborts (codec := sample_codec)
                   [face_record 3; small_emoji_record 1] 1 [FaceElement 3]
                   (small_emoji_record 1) _ eq_refl eq_refl _)
            [FaceElement 3] eq_refl).
  - eapply reaches_pass; [apply reaches_start|simpl; lia|reflexivity].
  - by eexists.
Defined.



Lemma unmapped_c2c_cmd_sample :
  MESSAGE_DECODERS !! 166 = Some BuddyMessageDecoder.decode
  /\ BuddyMessageDecoder.decode (sample_message 12 [text_record (b "hi")])
     = ([debug "MessageSvc.PbGetMsg: BuddyMessageDecoder cannot decode message with c2c_cmd 12"],
        Ok None).
Proof.
  assert (Hlookup : MESSAGE_DECODERS !! 166 = Some BuddyMessageDecoder.decode)
    by reflexivity.
  split; [exact Hlookup|].
  refine (proj1 (proj2 (proj2 (unmapped_c2c_cmd (codec := sample_codec) 166 BuddyMessageDecoder.decode
                                 (sample_message 12 [text_record (b "hi")])
                                 Hlookup _ _)))); simpl; lia.
Defined.

Lemma parse_elements_order_sample :
  exists positions,
    StronglySorted lt positions
    /\ [TextElement (u "hi"); FaceElement 7]
       = concat (emitted [text_record (b "hi"); face_record 7] <$> positions).
Proof.
  destruct (parse_elements_order (codec := sample_codec) [text_record (b "hi"); face_record 7]
              [TextElement (u "hi"); FaceElement 7])
    as [(positions & Hsorted & _ & Hres) _].
  - intros elem Hin. apply list_elem_of_In in Hin. simpl in Hin.
    destruct Hin as [<-|[<-|[]]]; reflexivity.
  - reflexivity.
  - exists positions. split; [exact Hsorted|exact Hres].
Defined.

Lemma tags_not_exclusive_sample :
  loop_body [text_face_record (b "hi") 7] 0 []
  = Ok (Continue 1 [TextElement (u "hi"); FaceElement 7]).
Proof.
  exact (proj1 (tags_not_exclusive (codec := sample_codec) [text_face_record (b "hi") 7] 0 []
                  (text_face_record (b "hi") 7) [TextElement (u "hi")] 0 [] 1 []
                  eq_refl eq_refl eq_refl eq_refl)).
Defined.
(** ** The further properties at work *)

Lemma index_error_only_trailing_small_emoji_sample :
  exists elem,
    last [face_record 3; small_emoji_record 1] = Some elem
    /\ is_Some (Elem.small_emoji elem).
Proof.
  exact (index_error_only_trailing_small_emoji (codec := sample_codec)
           [face_record 3; small_emoji_record 1] eq_refl).
Defined.

Lemma decode_error_only_malformed_payload_sample :
  exists elem ce,
    elem ∈ [text_record (b "hi"); common_elem_record 33 []]
    /\ Elem.common_elem elem = Some ce
    /\ ((CommonElem.service_type ce = 2
         /\ servtype2_FromString (CommonElem.pb_elem ce) = None)
        \/ (CommonElem.service_type ce = 33
            /\ servtype33_FromString (CommonElem.pb_elem ce) = None)).
Proof.
  exact (decode_error_only_malformed_payload (codec := sample_codec)
           [text_record (b "hi"); common_elem_record 33 []] eq_refl).
Defined.

Lemma unicode_error_only_invalid_utf8_sample :
  exists elem,
    elem ∈ [face_record 3; text_record [Byte.xff]]
    /\ ((exists t,
           Elem.text elem = Some t /\ utf8_decode (Text.str t) = None)
        \/ (exists ce poke,
              Elem.common_elem elem = Some ce
              /\ CommonElem.service_type ce = 2
              /\ servtype2_FromString (CommonElem.pb_elem ce) = Some poke
              /\ utf8_decode (MsgElemInfo_servtype2.vaspoke_name poke) = None)).
Proof.
  exact (unicode_error_only_invalid_utf8 (codec := sample_codec)
           [face_record 3; text_record [Byte.xff]] eq_refl).
Defined.

Lemma parse_elements_returns_sample :
  exists res,
    parse_elements [text_record (b "hi"); common_elem_record 33 [Byte.x07]]
    = Ok res.
Proof.
  apply (parse_elements_returns (codec := sample_codec)).
  - intros elem Hlast. injection Hlast as <-. reflexivity.
  - intros elem t Hin Ht. apply list_elem_of_In in Hin. simpl in Hin.
    destruct Hin as [<-|[<-|[]]].
    + injection Ht as <-. exists (u "hi"). reflexivity.
    + discriminate Ht.
  - intros elem ce Hin Hce H2. apply list_elem_of_In in Hin. simpl in Hin.
    destruct Hin as [<-|[<-|[]]].
    + discriminate Hce.
    + injection Hce as <-. discriminate H2.
  - intros elem ce Hin Hce H33. apply list_elem_of_In in Hin. simpl in Hin.
    destruct Hin as [<-|[<-|[]]].
    + discriminate Hce.
    + injection Hce as <-. eexists. reflexivity.
Defined.

Lemma poke_element_stands_alone_sample :
  parse_elements [text_record (b "a"); common_elem_record 2 (b "P")]
  = Ok [PokeElement 5 (u "Poke") 1 false]
  /\ [PokeElement 5 (u "Poke") 1 false] = [PokeElement 5 (u "Poke") 1 false].
Proof.
  split; [reflexivity|].
  refine (poke_element_stands_alone (codec := sample_codec)
            [text_record (b "a"); common_elem_record 2 (b "P")]
            [PokeElement 5 (u "Poke") 1 false]
            (PokeElement 5 (u "Poke") 1 false) eq_refl _ eq_refl).
  apply list_elem_of_In. simpl. left. reflexivity.
Defined.

Lemma parse_elements_length_sample :
  (length [TextElement (u "hi"); FaceElement 7]
   <= total_tags [text_face_record (b "hi") 7; custom_face_record []])%nat.
Proof.
  exact (parse_elements_length (codec := sample_codec)
           [text_face_record (b "hi") 7; custom_face_record []]
           [TextElement (u "hi"); FaceElement 7] eq_refl).
Defined.

Lemma parse_elements_comes_from_sample :
  Forall (comes_from [small_emoji_record 42; text_record (b "caption")])
    [SmallEmojiElement 42 (u "caption")].
Proof.
  exact (parse_elements_comes_from (codec := sample_codec)
           [small_emoji_record 42; text_record (b "caption")]
           [SmallEmojiElement 42 (u "caption")] eq_refl).
Defined.

Lemma parse_elements_app_sample :
  parse_elements ([text_record (b "a")] ++ [face_record 7; small_emoji_record 1])
  = Raise IndexError
  /\ parse_elements ([text_record (b "a")] ++ [common_elem_record 2 (b "P")])
     = Ok [PokeElement 5 (u "Poke") 1 false]
  /\ parse_elements ([text_record (b "a")] ++ [face_record 7])
     = Ok [TextElement (u "a"); FaceElement 7].
Proof.
  split; [|split].
  - exact (parse_elements_app (codec := sample_codec) [text_record (b "a")]
             [face_record 7; small_emoji_record 1] [TextElement (u "a")]
             eq_refl).
  - exact (parse_elements_app (codec := sample_codec) [text_record (b "a")]
             [common_elem_record 2 (b "P")] [TextElement (u "a")] eq_refl).
  - exact (parse_elements_app (codec := sample_codec) [text_record (b "a")]
             [face_record 7] [TextElement (u "a")] eq_refl).
Defined.

Lemma parse_elements_plain_sample :
  parse_elements [text_face_record (b "hi") 7; face_record 3]
  = Ok [TextElement (u "hi"); FaceElement 7; FaceElement 3].
Proof.
  refine (parse_elements_plain (codec := sample_codec)
            [text_face_record (b "hi") 7; face_record 3] _).
  intros elem Hin. apply list_elem_of_In in Hin. simpl in Hin.
  destruct Hin as [<-|[<-|[]]]; split; reflexivity.
Defined.

Lemma decode_normal_buddy_undecoded_sample :
  BuddyMessageDecoder.decode_normal_buddy
    (sample_message 11 [custom_face_record (b "x")])
  = Ok (Some (PrivateMessage 7 1600000000 false 10001 (u "nick") 10002 [])).
Proof.
  refine (proj2 (decode_normal_buddy_undecoded (codec := sample_codec)
                   (sample_message 11 [custom_face_record (b "x")]) _ _)).
  - split; [eexists; reflexivity|].
    do 2 eexists. split; [reflexivity|]. split; [reflexivity|]. discriminate.
  - constructor; [reflexivity|constructor].
Defined.

Lemma no_content_no_event_sample :
  (BuddyMessageDecoder.decode (bare_message 11)).2 = Ok None.
Proof.
  refine (no_content_no_event (codec := sample_codec) 9
            BuddyMessageDecoder.decode (bare_message 11) eq_refl _).
  intros [[? Hhead] _]. discriminate Hhead.
Defined.

Lemma event_only_from_normal_buddy_sample :
  exists elements,
    parse_elements (content_elements (sample_message 175 [face_record 7]))
    = Ok elements
    /\ PrivateMessage 7 1600000000 false 10001 (u "nick") 10002 [FaceElement 7]
       = private_message (sample_message 175 [face_record 7]) elements.
Proof.
  exact (proj2 (proj2 (proj2
           (event_only_from_normal_buddy (codec := sample_codec) 166
              BuddyMessageDecoder.decode (sample_message 175 [face_record 7])
              []
              (PrivateMessage 7 1600000000 false 10001 (u "nick") 10002
                 [FaceElement 7])
              eq_refl eq_refl)))).
Defined.

Lemma exception_only_from_parse_elements_sample :
  parse_elements (content_elements (sample_message 11 [small_emoji_record 1]))
  = Raise IndexError.
Proof.
  exact (proj2 (proj2
           (exception_only_from_parse_elements (codec := sample_codec) 10
              BuddyMessageDecoder.decode
              (sample_message 11 [small_emoji_record 1]) IndexError
              eq_refl eq_refl))).
Defined.
End samples.
